(** * mbox-analyzer: a shallow embedding of [mbox_analyzer.py]

  The development follows the pipeline of the script:
  [MboxReader] (boundary scanner over a byte source), [read_messages]
  (record extraction, address and label normalisation), [agg_stats],
  [sort_stats] and [main].

  Conventions.
  - Python [bytes] is [list byte]; Python [str] is [string]; Python
    [int] is [Z].
  - The [email] package is library code outside the script: it is a
    parameter, a record of the two calls the script makes, each of which
    returns or raises.
  - The script catches no exception: one raised by the library ends the
    iteration it occurs in and, through it, the run.
  - Logging and wall-clock progress reporting do not influence the
    produced records and are left out; writing to the standard output is
    taken to succeed. *)

From Stdlib Require Import List ZArith Lia Bool Arith.
From Stdlib Require Import Strings.Byte Strings.Ascii Strings.String.
From Stdlib Require Import Sorting.Permutation Sorting.Sorted.
From Stdlib Require OrderedTypeEx.
From Stdlib Require DecimalString DecimalZ DecimalPos.
Import ListNotations.

Local Open Scope list_scope.

(** ** Python [bytes] *)

Module Bytes.

Definition bytes := list byte.

(** The line terminator recognised by [readline] on a binary handle. *)
Definition LF : byte := x0a.

(** A bytes literal without escapes. *)
Definition b (s : string) : bytes := list_byte_of_string s.

(** [bytes.startswith(prefix)] *)
Fixpoint startswith (l prefix : bytes) : bool :=
  match prefix, l with
  | [], _ => true
  | _ :: _, [] => false
  | p :: prefix', c :: l' => Byte.eqb c p && startswith l' prefix'
  end.

(** [len(x)] *)
Definition len (l : bytes) : Z := Z.of_nat (List.length l).

(** [b''.join(lines)] *)
Definition join (lines : list bytes) : bytes := List.concat lines.

(** [x == b''] *)
Definition is_empty (l : bytes) : bool :=
  match l with [] => true | _ :: _ => false end.

(** [handle.readline()]: the bytes up to and including the first [LF],
    or everything that is left when there is none; [b''] at the end of
    the file.  The second component is what remains in the handle. *)
Fixpoint readline (h : bytes) : bytes * bytes :=
  match h with
  | [] => ([], [])
  | c :: t =>
      if Byte.eqb c LF then ([c], t)
      else let (l, r) := readline t in (c :: l, r)
  end.

End Bytes.
Import Bytes.

(** ** Exceptions and the email library *)

(** A call that returns, or lets an exception escape. *)
Inductive result (A : Type) : Type :=
| Ok (a : A)
| Exn.

Arguments Ok {A} a.
Arguments Exn {A}.

Definition bind {A B : Type} (c : result A) (k : A -> result B) : result B :=
  match c with
  | Ok a => k a
  | Exn => Exn
  end.

Notation "x <- c ;; k" := (bind c (fun x => k))
  (at level 61, c at next level, right associativity).

(** The [email] package as the script uses it.  The script neither
    defines it nor catches what it raises. *)
Record Email : Type := {
  (** the objects [email.message_from_bytes] returns *)
  Msg : Type;
  (** [email.message_from_bytes(bytes_, policy=default)] *)
  message_from_bytes : bytes -> result Msg;
  (** [msg[name]]: [None] when the header is absent *)
  getitem : Msg -> string -> result (option string)
}.

(** ** The boundary scanner, [class MboxReader] *)

Module MboxReader.

(** The sentinel prefix [b'From ']. *)
Definition sentinel : bytes := b "From ".

(** The object state: the unread part of the file (the handle with its
    offset) and [self.size]. *)
Record t := mk { handle : bytes; size : Z }.

(** [MboxReader.__init__]; [None] is the [AssertionError]. *)
Definition init (src : bytes) : option t :=
  let (line, rest) := readline src in
  if startswith line sentinel then Some (mk rest (len src)) else None.

(** The generator state of [__next__]: the handle and the local [lines]. *)
Record gen := mkGen { g_handle : bytes; g_lines : list bytes }.

(** How an iteration ends: the generator is exhausted, an exception
    escapes, or the bound on the turns is reached. *)
Inductive ending := StopIteration | Exception | NoFuel.

Section Iteration.

Variable E : Email.

(** What the scanner yields: the object the library returned for
    [payload], with the attribute [_x_sz] the scanner attaches. *)
Record Message := mkMessage { payload : bytes; obj : Msg E; _x_sz : Z }.

Inductive event :=
| Yield (m : Message) (g : gen)     (* a boundary line: yield, go on *)
| YieldStop (m : Message)           (* end of file: yield, break *)
| Append (g : gen)                  (* an ordinary line *)
| Raise.                            (* the library raised on the buffer *)

(** One turn of the [while True] loop. *)
Definition step (g : gen) : event :=
  let (line, h') := readline (g_handle g) in
  if is_empty line || startswith line sentinel then
    let bytes_ := join (g_lines g) in
    match message_from_bytes E bytes_ with
    | Exn => Raise
    | Ok msg =>
        let msg := mkMessage bytes_ msg (len bytes_) in
        if is_empty line then YieldStop msg
        else Yield msg (mkGen h' [])
    end
  else Append (mkGen h' (g_lines g ++ [line])).

(** The loop, bounded by [fuel] turns: the messages yielded and how the
    iteration ended. *)
Fixpoint run (fuel : nat) (g : gen) : list Message * ending :=
  match fuel with
  | O => ([], NoFuel)
  | S fuel' =>
      match step g with
      | YieldStop m => ([m], StopIteration)
      | Yield m g' => let (ms, e) := run fuel' g' in (m :: ms, e)
      | Append g' => run fuel' g'
      | Raise => ([], Exception)
      end
  end.

(** Iterating over the reader: every turn but the last consumes a
    byte. *)
Definition messages (r : t) : list Message * ending :=
  run (S (List.length (handle r))) (mkGen (handle r) []).

End Iteration.

Arguments mkMessage {E} payload obj _x_sz.
Arguments payload {E} m.
Arguments obj {E} m.
Arguments _x_sz {E} m.
Arguments Yield {E} m g.
Arguments YieldStop {E} m.
Arguments Append {E} g.
Arguments Raise {E}.

End MboxReader.

Import MboxReader.

(** ** Python [str], [sorted] and [list.sort] *)

Module Py.

Local Open Scope string_scope.

(** [s.split(sep)] for a separator of one character: never returns the
    empty list, and keeps empty tokens. *)
Fixpoint split (sep : ascii) (s : string) : list string :=
  match s with
  | EmptyString => [EmptyString]
  | String c s' =>
      if Ascii.eqb c sep then EmptyString :: split sep s'
      else match split sep s' with
           | [] => [String c EmptyString]
           | tok :: toks => String c tok :: toks
           end
  end.

(** [sep.join(l)] *)
Definition join (sep : string) (l : list string) : string :=
  String.concat sep l.

(** [x.startswith(p)] *)
Definition startswith (x p : string) : bool := String.prefix p x.

(** [str(None)] *)
Definition str_None : string := "None".

Section Sort.

Context {A : Type}.
Variable lt : A -> A -> bool.

(** Stable insertion with [<] alone, the only comparison [list.sort]
    uses: [x] stood before every element of [l] and stays before the
    first one that is not smaller than it. *)
Fixpoint insert (x : A) (l : list A) : list A :=
  match l with
  | [] => [x]
  | y :: l' => if lt y x then y :: insert x l' else x :: l
  end.

(** [sorted(l)] and [l.sort()]: a stable sort. *)
Definition sorted (l : list A) : list A := fold_right insert [] l.

End Sort.

End Py.

(** ** The regular expression of [extract_address] *)

Module Re.

Local Open Scope string_scope.

Section Combinators.

Context {A : Type}.

(** A literal character. *)
Definition lit (c : ascii) (s : string) (k : string -> option A) : option A :=
  match s with
  | String c' s' => if Ascii.eqb c' c then k s' else None
  | EmptyString => None
  end.

(** [[^cs]+], greedy: the longest run is tried first and the matcher
    backtracks to shorter ones when the continuation fails.  The
    continuation receives the text consumed and the rest. *)
Fixpoint plus_not (cs : list ascii) (s : string)
    (k : string -> string -> option A) : option A :=
  match s with
  | EmptyString => None
  | String c s' =>
      if existsb (Ascii.eqb c) cs then None
      else match plus_not cs s' (fun m r => k (String c m) r) with
           | Some r => Some r
           | None => k (String c EmptyString) s'
           end
  end.

End Combinators.

(** [<([^>@]+@[^>]+)>] anchored at the start of [s]: the text of group 1
    and what follows the match. *)
Definition match_at (s : string) : option (string * string) :=
  lit "<" s (fun s1 =>
  plus_not [">"; "@"]%char s1 (fun local s2 =>
  lit "@" s2 (fun s3 =>
  plus_not [">"]%char s3 (fun domain s4 =>
  lit ">" s4 (fun s5 =>
  Some (local ++ "@" ++ domain, s5)))))).

(** [re.findall]: the matches from left to right, not overlapping.
    [skip] counts the characters of the last match still to pass. *)
Fixpoint findall_aux (skip : nat) (s : string) : list string :=
  match skip with
  | S n =>
      match s with
      | EmptyString => []
      | String _ s' => findall_aux n s'
      end
  | O =>
      match match_at s with
      | Some (g, rest) =>
          g :: match s with
               | EmptyString => []
               | String _ s' =>
                   findall_aux (String.length s' - String.length rest) s'
               end
      | None =>
          match s with
          | EmptyString => []
          | String _ s' => findall_aux 0 s'
          end
      end
  end.

Definition findall (s : string) : list string := findall_aux 0 s.

End Re.

(** ** The statistics pipeline *)

Local Open Scope string_scope.
Local Open Scope Z_scope.

Record StatisticsLine := mkStat {
  count : Z;
  total_size_bytes : Z;
  from_addr : string;
  labels : string
}.

(** [filter_gmail_labels]: the loop appends the labels it keeps. *)
Definition filter_gmail_labels (comma_separated_labels : string) : list string :=
  let labels := Py.split "," comma_separated_labels in
  fold_left
    (fun good_labels x =>
       if existsb (String.eqb x) ["Inbox"; "Important"; "Opened"] then good_labels
       else if Py.startswith x "Category " then good_labels
       else (good_labels ++ [x])%list)
    labels [].

(** [extract_address] *)
Definition extract_address (x : string) : string :=
  match Re.findall x with
  | g :: _ => g
  | [] => x
  end.

(** Lines 102-103 of [read_messages]: the label string of a record. *)
Definition label_string (gmail_labels : string) : string :=
  let labels := filter_gmail_labels gmail_labels in
  Py.join "," (Py.sorted String.ltb labels).

Section ReadMessages.

Variable E : Email.

(** The body of the [for] loop of [read_messages] up to its [yield]:
    the three lookups come first and any of them may raise. *)
Definition stat_of (msg : Message E) : result StatisticsLine :=
  let size := _x_sz msg in
  from_ <- getitem E (obj msg) "From" ;;
  to_ <- getitem E (obj msg) "To" ;;
  gmail_labels <- getitem E (obj msg) "X-Gmail-Labels" ;;
  let gmail_labels :=
    match gmail_labels with None => Py.str_None | Some s => s end in
  let from_ :=
    match from_ with None => Py.str_None | Some s => s end in
  let from_ := extract_address from_ in
  let labels := label_string gmail_labels in
  Ok (mkStat 1 size from_ labels).

(** The [for] loop over what the reader yields, [e] being how the reader
    ends: a record per message, until a lookup raises.  The reader is
    consumed one message at a time; as an exception is the only effect,
    the records yielded and the ending are those of the loop run over all
    the reader would yield. *)
Fixpoint read_loop (msgs : list (Message E)) (e : ending)
    : list StatisticsLine * ending :=
  match msgs with
  | [] => ([], e)
  | msg :: rest =>
      match stat_of msg with
      | Exn => ([], Exception)
      | Ok line => let (lines, e') := read_loop rest e in (line :: lines, e')
      end
  end.

(** [read_messages]: the records yielded and how the iteration ended. *)
Definition read_messages (reader : MboxReader.t)
    : list StatisticsLine * ending :=
  let (msgs, e) := messages E reader in read_loop msgs e.

End ReadMessages.

(** [collections.defaultdict(int)] as the aggregator uses it: a dict keeps
    its keys in insertion order. *)
Module DefaultDict.

Definition key := (string * string)%type.

Definition key_eqb (k1 k2 : key) : bool :=
  String.eqb (fst k1) (fst k2) && String.eqb (snd k1) (snd k2).

Definition t := list (key * Z).

(** [d[k] += v]: a missing key enters at the end with [0 + v]. *)
Fixpoint add (k : key) (v : Z) (d : t) : t :=
  match d with
  | [] => [(k, 0 + v)]
  | (k', a) :: d' =>
      if key_eqb k k' then (k', a + v) :: d'
      else (k', a) :: add k v d'
  end.

(** [d[k]] *)
Fixpoint get (k : key) (d : t) : Z :=
  match d with
  | [] => 0
  | (k', a) :: d' => if key_eqb k k' then a else get k d'
  end.

(** [d.items()] *)
Definition items (d : t) : list (key * Z) := d.

End DefaultDict.

(** The inner function [key] of [agg_stats]. *)
Definition key (x : StatisticsLine) : DefaultDict.key :=
  (from_addr x, labels x).

(** The first loop of [agg_stats]. *)
Definition agg_fold (ms : list StatisticsLine)
    (acc : DefaultDict.t * DefaultDict.t) : DefaultDict.t * DefaultDict.t :=
  fold_left
    (fun '(sizes, counts) m =>
       let k := key m in
       (DefaultDict.add k (total_size_bytes m) sizes,
        DefaultDict.add k (count m) counts))
    ms acc.

(** [agg_stats] *)
Definition agg_stats (ms : list StatisticsLine) : list StatisticsLine :=
  let '(sizes, counts) := agg_fold ms ([], []) in
  map (fun '(k, sz) => mkStat (DefaultDict.get k counts) sz (fst k) (snd k))
      (DefaultDict.items sizes).

(** [sort_stats] *)
Definition sort_stats (ms : list StatisticsLine) : list StatisticsLine :=
  let all_stats := ms in
  Py.sorted (fun x y => total_size_bytes x <? total_size_bytes y) all_stats.
(** How a run of [main] ends. *)
Inductive outcome :=
| Printed (lines : list StatisticsLine)   (* what [print_messages] wrote *)
| AssertionError                          (* raised by [MboxReader(...)] *)
| Crashed (lines : list StatisticsLine)   (* written before an exception *)
| OutOfFuel.

(** A stage that reads all of its input before it gives anything:
    [agg_stats] in its first loop, [sort_stats] in [list(ms)].  An
    exception of the input passes through and nothing is given. *)
Definition drained (f : list StatisticsLine -> list StatisticsLine)
    (ms : list StatisticsLine * ending) : list StatisticsLine * ending :=
  match snd ms with
  | StopIteration => (f (fst ms), StopIteration)
  | e => ([], e)
  end.

(** [main] with its two flags, on the content of the file. *)
Definition main (E : Email) (agg sort : bool) (src : bytes) : outcome :=
  match init src with
  | None => AssertionError
  | Some reader =>
      let messages := read_messages E reader in
      let messages := if agg then drained agg_stats messages else messages in
      let messages := if sort then drained sort_stats messages else messages in
      match messages with
      | (lines, StopIteration) => Printed lines
      | (lines, Exception) => Crashed lines
      | (_, NoFuel) => OutOfFuel
      end
  end.

(** ** What the specification speaks of *)

Module Spec.

(** The physical lines of a source, each with its terminator. *)
Fixpoint lines_of (h : bytes) : list bytes :=
  match h with
  | [] => []
  | c :: t =>
      if Byte.eqb c LF then [c] :: lines_of t
      else match lines_of t with
           | [] => [[c]]
           | l :: ls => (c :: l) :: ls
           end
  end.

(** A sentinel line: a line starting with the fixed prefix. *)
Definition is_sentinel (line : bytes) : bool := startswith line sentinel.

(** The bytes of a list of lines. *)
Definition size_of (ls : list bytes) : Z := len (List.concat ls).

(** The bytes taken by the sentinel lines of a source. *)
Definition sentinel_bytes (src : bytes) : Z :=
  size_of (filter is_sentinel (lines_of src)).

(** Records as the glossary has them: from one sentinel line (inclusive)
    to the next sentinel line (exclusive) or the end of the source.
    [cur] is the record being collected. *)
Fixpoint records_from (cur : list bytes) (ls : list bytes) : list (list bytes) :=
  match ls with
  | [] => [cur]
  | l :: ls' =>
      if is_sentinel l then cur :: records_from [l] ls'
      else records_from (cur ++ [l]) ls'
  end.

Definition records (src : bytes) : list (list bytes) :=
  match lines_of src with
  | [] => []
  | l :: ls => records_from [l] ls
  end.

(** A record without its leading delimiter line. *)
Definition content (record : list bytes) : bytes := List.concat (tl record).

(** "[From ] followed by at least one space-separated token": after the
    prefix the first line holds a byte that is neither a blank nor a line
    terminator. *)
Definition has_token (rest : bytes) : bool :=
  existsb (fun c => negb (Byte.eqb c x20 || Byte.eqb c x0a || Byte.eqb c x0d)) rest.

Definition sentinel_with_token (src : bytes) : bool :=
  let line := fst (readline src) in
  startswith line sentinel && has_token (skipn 5 line).

(** The labels the normaliser keeps. *)
Definition boring (x : string) : bool :=
  String.eqb x "Inbox" || String.eqb x "Important" || String.eqb x "Opened"
  || String.prefix "Category " x.

(** Lexicographic order of strings. *)
Definition str_le (x y : string) : Prop := String.leb x y = true.

(** [c] occurs in [s]. *)
Fixpoint mem (c : ascii) (s : string) : bool :=
  match s with
  | EmptyString => false
  | String c' s' => Ascii.eqb c' c || mem c s'
  end.

(** [x] holds [<local@domain>] right after [pre]. *)
Definition bracketed (x pre local domain post : string) : Prop :=
  x = (pre ++ "<" ++ local ++ "@" ++ domain ++ ">" ++ post)%string.

(** The form as the specification words it. *)
Definition form (local domain : string) : Prop :=
  mem ">" local = false /\ mem "@" local = false /\ mem ">" domain = false.

(** The form the pattern asks for: both parts hold a character. *)
Definition form1 (local domain : string) : Prop :=
  form local domain /\ local <> EmptyString /\ domain <> EmptyString.

(** Sums over records. *)
Definition sum_Z (l : list Z) : Z := fold_right Z.add 0 l.
Definition sum_count (ms : list StatisticsLine) : Z := sum_Z (map count ms).
Definition sum_size (ms : list StatisticsLine) : Z :=
  sum_Z (map total_size_bytes ms).

(** The records of one aggregation key. *)
Definition with_key (k : DefaultDict.key) (ms : list StatisticsLine) :=
  filter (fun m => DefaultDict.key_eqb (key m) k) ms.

(** The distinct keys of a sequence in the order of their first
    occurrence. *)
Fixpoint first_occurrences (ks : list DefaultDict.key) : list DefaultDict.key :=
  match ks with
  | [] => []
  | k :: ks' =>
      k :: filter (fun k' => negb (DefaultDict.key_eqb k' k)) (first_occurrences ks')
  end.

(** Ascending by size. *)
Definition size_le (x y : StatisticsLine) : Prop :=
  total_size_bytes x <= total_size_bytes y.

(** The records of one size, in the order they stand. *)
Definition of_size (sz : Z) (ms : list StatisticsLine) :=
  filter (fun m => total_size_bytes m =? sz) ms.

End Spec.

(** The scanner as a function of the lines still to read: [buf] is the
    local [lines] of [__next__]. *)
Module Lines.

(** The payloads handed to the library, in order. *)
Fixpoint scan (buf : list bytes) (ls : list bytes) : list bytes :=
  match ls with
  | [] => [join buf]
  | l :: ls' =>
      if Spec.is_sentinel l then join buf :: scan [] ls'
      else scan (buf ++ [l])%list ls'
  end.

Section Library.

Variable E : Email.

(** The messages yielded for these payloads: all of them up to the first
    one the library raises on. *)
Fixpoint emit (ps : list bytes) : list (Message E) * ending :=
  match ps with
  | [] => ([], StopIteration)
  | p :: ps' =>
      match message_from_bytes E p with
      | Exn => ([], Exception)
      | Ok o => let (ms, e) := emit ps' in (mkMessage p o (len p) :: ms, e)
      end
  end.

(** A message as the scanner builds it. *)
Definition built (m : Message E) : Prop :=
  message_from_bytes E (payload m) = Ok (obj m) /\ _x_sz m = len (payload m).

(** The library returns on this payload. *)
Definition parses (p : bytes) : Prop := message_from_bytes E p <> Exn.

(** Neither the parse of this payload nor one of the three lookups of
    [read_messages] raises. *)
Definition quiet (p : bytes) : Prop :=
  exists o,
    message_from_bytes E p = Ok o
    /\ getitem E o "From" <> Exn
    /\ getitem E o "To" <> Exn
    /\ getitem E o "X-Gmail-Labels" <> Exn.

End Library.

End Lines.

(** The longest run of characters outside a class, as a function. *)
Module Span.

Definition in_class (cs : list ascii) (c : ascii) : bool :=
  existsb (Ascii.eqb c) cs.

(** No character of [s] is in [cs]. *)
Fixpoint avoids (cs : list ascii) (s : string) : bool :=
  match s with
  | EmptyString => true
  | String c s' => negb (in_class cs c) && avoids cs s'
  end.

(** The run and what follows it. *)
Fixpoint span_not (cs : list ascii) (s : string) : string * string :=
  match s with
  | EmptyString => (EmptyString, EmptyString)
  | String c s' =>
      if in_class cs c then (EmptyString, s)
      else let (m, r) := span_not cs s' in (String c m, r)
  end.

(** [r] is empty or starts outside [cs]: a continuation that wants a
    character of [cs] next fails on it. *)
Definition stuck (cs : list ascii) (r : string) : Prop :=
  match r with
  | EmptyString => True
  | String c _ => in_class cs c = false
  end.

End Span.

Local Open Scope list_scope.

(** Sample inputs. *)
Module Ex.

(** [From a\nbody\n] *)
Definition one_message : bytes := b "From a" ++ [LF] ++ b "body" ++ [LF].

(** [From a\nFrom b\nx] *)
Definition two_sentinels : bytes := b "From a" ++ [LF] ++ b "From b" ++ [LF] ++ b "x".

(** [From a\n] *)
Definition lone_sentinel : bytes := b "From a" ++ [LF].

(** [From a\nContent-Type: text/plain; name*\n\nFrom b\nFrom c\n] *)
Definition broken_then_empty : bytes :=
  b "From a" ++ [LF] ++ b "Content-Type: text/plain; name*" ++ [LF] ++ [LF]
  ++ b "From b" ++ [LF] ++ b "From c" ++ [LF].

(** A library that returns on every payload and finds no header. *)
Definition plain : Email :=
  {| Msg := unit;
     message_from_bytes := fun _ => Ok tt;
     getitem := fun _ _ => Ok None |}.

(** A library that raises where the header parser of the standard one
    does: on a payload that starts with a [Content-Type] whose parameter
    name ends in a star and has no value, and on the lookup of [To] in a
    message that starts with [To: <].  It finds no other header. *)
Definition fragile : Email :=
  {| Msg := bytes;
     message_from_bytes := fun p =>
       if startswith p (b "Content-Type: text/plain; name*") then Exn
       else Ok p;
     getitem := fun p name =>
       if String.eqb name "To" && startswith p (b "To: <") then Exn
       else Ok None |}.

(** The message [To: <\n] as [fragile] returns it. *)
Definition lone_To : Message fragile :=
  @mkMessage fragile (b "To: <" ++ [LF]) (b "To: <" ++ [LF]) 6.

End Ex.

(** ** The rest of the script *)

(** [MboxReader.pos]: [handle.tell()], the number of bytes consumed. *)
Definition pos (r : MboxReader.t) : Z := size r - len (handle r).

(** The sink, [print_messages]. *)
Module Sink.

Local Open Scope string_scope.

(** [str(n)] for an [int]. *)
Definition str_int (n : Z) : string :=
  DecimalString.NilZero.string_of_int (Z.to_int n).

Definition newline : string := String (ascii_of_nat 10) EmptyString.

(** What [print(m.total_size_bytes, m.count, m.from_addr, m.labels)]
    writes: the four values separated by a blank, and a line end. *)
Definition print_line (m : StatisticsLine) : string :=
  str_int (total_size_bytes m) ++ " " ++ str_int (count m) ++ " "
  ++ from_addr m ++ " " ++ labels m ++ newline.

(** [print_messages]: the text written to the standard output. *)
Definition print_messages (ms : list StatisticsLine) : string :=
  fold_right (fun m out => print_line m ++ out) EmptyString ms.

End Sink.

(** What a reader of the output or of the source can rely on. *)
Module Layout.

(** The payloads put back between the delimiter lines that followed
    them. *)
Fixpoint weave (payloads delimiters : list bytes) : bytes :=
  match payloads with
  | [] => []
  | p :: ps =>
      p ++ match delimiters with
           | [] => []
           | d :: ds => d ++ weave ps ds
           end
  end.

(** The text before the first blank, and the text after it. *)
Fixpoint field (s : string) : string * string :=
  match s with
  | EmptyString => (EmptyString, EmptyString)
  | String c s' =>
      if Ascii.eqb c " " then (EmptyString, s')
      else let (f, r) := field s' in (String c f, r)
  end.

(** Reading a decimal number. *)
Definition read_int (s : string) : option Z :=
  option_map Z.of_int (DecimalString.NilZero.int_of_string s).

(** The record of an aggregation key: the sums over the inputs that
    have this key. *)
Definition group (ms : list StatisticsLine) (k : DefaultDict.key) : StatisticsLine :=
  mkStat (Spec.sum_count (Spec.with_key k ms))
         (Spec.sum_size (Spec.with_key k ms)) (fst k) (snd k).

(** [k] is not among [ks]. *)
Definition fresh (ks : list DefaultDict.key) (k : DefaultDict.key) : bool :=
  negb (existsb (DefaultDict.key_eqb k) ks).

End Layout.

(** * Theorems *)

(** ** [readline] and the lines of a source *)

Section Readline.

Lemma readline_nil_iff (h : bytes) : fst (readline h) = [] <-> h = [].
Proof.
  destruct h as [|c t]; simpl; [tauto|].
  destruct (Byte.eqb c LF); [|destruct (readline t)]; simpl;
    split; discriminate.
Qed.

Lemma readline_app (h : bytes) : fst (readline h) ++ snd (readline h) = h.
Proof.
  induction h as [|c t IH]; simpl; [reflexivity|].
  destruct (Byte.eqb c LF); simpl; [reflexivity|].
  destruct (readline t) as [l r]; simpl in *. now rewrite IH.
Qed.

Lemma readline_length (h : bytes) :
  (List.length (fst (readline h)) + List.length (snd (readline h)))%nat
  = List.length h.
Proof. now rewrite <- length_app, readline_app. Qed.

Lemma lines_of_readline (h : bytes) :
  h <> [] ->
  Spec.lines_of h = fst (readline h) :: Spec.lines_of (snd (readline h)).
Proof.
  induction h as [|c t IH]; [congruence|]; intros _; simpl.
  destruct (Byte.eqb c LF); simpl; [reflexivity|].
  destruct t as [|c' t'].
  - reflexivity.
  - rewrite IH by discriminate.
    destruct (readline (c' :: t')) as [l r]; reflexivity.
Qed.

Lemma concat_lines_of (h : bytes) : List.concat (Spec.lines_of h) = h.
Proof.
  induction h as [|c t IH]; simpl; [reflexivity|].
  destruct (Byte.eqb c LF); simpl; [now rewrite IH|].
  destruct (Spec.lines_of t) as [|l ls]; simpl in *; now rewrite <- IH.
Qed.

Lemma lines_of_nonempty (h : bytes) : Forall (fun l => l <> []) (Spec.lines_of h).
Proof.
  induction h as [|c t IH]; simpl; [constructor|].
  destruct (Byte.eqb c LF); [constructor; [discriminate|assumption]|].
  destruct (Spec.lines_of t) as [|l ls].
  - constructor; [discriminate|constructor].
  - inversion IH; subst. constructor; [discriminate|assumption].
Qed.

End Readline.

(** ** The scanner *)

Section Scanner.

Variable E : Email.

Lemma is_empty_true (l : bytes) : is_empty l = true <-> l = [].
Proof. destruct l; simpl; split; congruence. Qed.

(** With a turn of fuel per byte and one more, the loop ends as
    [Lines.emit] does on the payloads of [Lines.scan]. *)
Lemma run_emit (fuel : nat) :
  forall g, (List.length (g_handle g) < fuel)%nat ->
  run E fuel g
  = Lines.emit E (Lines.scan (g_lines g) (Spec.lines_of (g_handle g))).
Proof.
  induction fuel as [|fuel IH]; intros [h buf] Hlt; simpl in *; [lia|].
  unfold step; simpl.
  destruct h as [|c t].
  - simpl. destruct (message_from_bytes E (join buf)); reflexivity.
  - pose proof (lines_of_readline (c :: t) ltac:(discriminate)) as Hl.
    pose proof (readline_length (c :: t)) as Hlen.
    pose proof (proj1 (readline_nil_iff (c :: t))) as Hne.
    destruct (readline (c :: t)) as [line h'] eqn:Hr; simpl in *.
    rewrite Hl. simpl.
    destruct line as [|c0 line]; [now specialize (Hne eq_refl)|].
    simpl is_empty. rewrite orb_false_l.
    unfold Spec.is_sentinel.
    destruct (startswith (c0 :: line) sentinel).
    + simpl. destruct (message_from_bytes E (join buf)); [|reflexivity].
      rewrite IH by (simpl in *; lia). reflexivity.
    + rewrite IH by (simpl in *; lia). reflexivity.
Qed.

(** Iterating over the reader never meets the bound. *)
Lemma messages_emit (r : MboxReader.t) :
  messages E r = Lines.emit E (Lines.scan [] (Spec.lines_of (handle r))).
Proof. unfold messages. now rewrite run_emit by (simpl; lia). Qed.

Lemma init_Some (src : bytes) (r : MboxReader.t) :
  init src = Some r ->
  exists l0, Spec.lines_of src = l0 :: Spec.lines_of (handle r)
             /\ Spec.is_sentinel l0 = true /\ size r = len src.
Proof.
  unfold init. intros H.
  destruct src as [|c t]; [discriminate|].
  rewrite (lines_of_readline (c :: t)) by discriminate.
  destruct (readline (c :: t)) as [line rest]; simpl.
  unfold Spec.is_sentinel.
  destruct (startswith line sentinel) eqn:E0; [|discriminate].
  injection H as <-. exists line. simpl. auto.
Qed.

Lemma init_None (src : bytes) :
  init src = None <-> startswith (fst (readline src)) sentinel = false.
Proof.
  unfold init. destruct (readline src) as [line rest]; simpl.
  destruct (startswith line sentinel); split; congruence.
Qed.

(** *** The payloads *)

Lemma scan_content (s : bytes) (ls : list bytes) :
  forall buf, Lines.scan buf ls
              = map Spec.content (Spec.records_from (s :: buf) ls).
Proof.
  revert s. induction ls as [|l ls IH]; intros s buf; simpl.
  - reflexivity.
  - destruct (Spec.is_sentinel l); simpl.
    + now rewrite (IH l).
    + now rewrite (IH s).
Qed.

Lemma scan_app_sentinel (s : bytes) (l1 l2 : list bytes) :
  Spec.is_sentinel s = true ->
  forall buf, Lines.scan buf (l1 ++ s :: l2)
              = Lines.scan buf l1 ++ Lines.scan [] l2.
Proof.
  intros Hs. induction l1 as [|l l1 IH]; intros buf; simpl.
  - now rewrite Hs.
  - destruct (Spec.is_sentinel l); simpl; now rewrite IH.
Qed.

Lemma scan_length (ls : list bytes) :
  forall buf, List.length (Lines.scan buf ls)
              = S (List.length (filter Spec.is_sentinel ls)).
Proof.
  induction ls as [|l ls IH]; intros buf; simpl; [reflexivity|].
  destruct (Spec.is_sentinel l); simpl; now rewrite IH.
Qed.

Lemma len_app (x y : bytes) : len (x ++ y) = len x + len y.
Proof. unfold len. rewrite length_app. lia. Qed.

Lemma len_nonneg (x : bytes) : 0 <= len x.
Proof. unfold len. lia. Qed.

Lemma scan_sum (ls : list bytes) :
  forall buf,
  Spec.sum_Z (map len (Lines.scan buf ls))
  = Spec.size_of buf
    + Spec.size_of (filter (fun l => negb (Spec.is_sentinel l)) ls).
Proof.
  unfold Spec.size_of.
  induction ls as [|l ls IH]; intros buf; simpl.
  - unfold join, len. simpl. lia.
  - destruct (Spec.is_sentinel l); simpl.
    + rewrite IH. unfold join. simpl. unfold len. simpl. lia.
    + rewrite IH, concat_app, !len_app. simpl. rewrite app_nil_r. lia.
Qed.

Lemma size_of_split (f : bytes -> bool) (ls : list bytes) :
  Spec.size_of ls
  = Spec.size_of (filter f ls) + Spec.size_of (filter (fun l => negb (f l)) ls).
Proof.
  unfold Spec.size_of.
  induction ls as [|l ls IH]; simpl; [reflexivity|].
  destruct (f l); simpl; rewrite !len_app; lia.
Qed.

Lemma records_from_hd (ls : list bytes) :
  forall cur, Spec.is_sentinel (hd [] cur) = true ->
  Forall (fun rec => Spec.is_sentinel (hd [] rec) = true)
         (Spec.records_from cur ls).
Proof.
  induction ls as [|l ls IH]; intros cur Hc; simpl.
  - constructor; [assumption|constructor].
  - destruct (Spec.is_sentinel l) eqn:E0.
    + constructor; [assumption|]. apply IH. exact E0.
    + apply IH. destruct cur; simpl in *; [discriminate|assumption].
Qed.

Lemma content_size (rec : list bytes) :
  len (Spec.content rec) = Spec.size_of rec - len (hd [] rec).
Proof.
  unfold Spec.content, Spec.size_of. destruct rec as [|h t]; simpl.
  - reflexivity.
  - rewrite len_app. lia.
Qed.

Lemma step_Yield_lines (g : gen) (m : Message E) (g' : gen) :
  step E g = Yield m g' -> g_lines g' = [].
Proof.
  unfold step. destruct (readline (g_handle g)) as [line h'].
  destruct (is_empty line || startswith line sentinel);
    [destruct (message_from_bytes E (join (g_lines g)));
     [destruct (is_empty line)|]|];
    intros H; inversion H; reflexivity.
Qed.

(** The payloads of a well-formed source are its records without their
    delimiter lines. *)
Lemma scan_init (src : bytes) (r : MboxReader.t) :
  init src = Some r ->
  Lines.scan [] (Spec.lines_of (handle r))
  = map Spec.content (Spec.records src)
  /\ Forall (fun rec => Spec.is_sentinel (hd [] rec) = true) (Spec.records src)
  /\ List.length (Spec.records src)
     = List.length (filter Spec.is_sentinel (Spec.lines_of src))
  /\ Spec.sum_Z (map len (map Spec.content (Spec.records src)))
     = len src - Spec.sentinel_bytes src.
Proof.
  intros Hi. destruct (init_Some _ _ Hi) as (l0 & Hl & Hs & _).
  assert (Hr : Spec.records src
               = Spec.records_from [l0] (Spec.lines_of (handle r)))
    by (unfold Spec.records; now rewrite Hl).
  assert (Hsc : Lines.scan [] (Spec.lines_of (handle r))
                = map Spec.content (Spec.records src))
    by (rewrite Hr; apply scan_content).
  split; [exact Hsc|]. split; [rewrite Hr; now apply records_from_hd|].
  split.
  - rewrite <- (length_map Spec.content), <- Hsc, scan_length, Hl.
    simpl. now rewrite Hs.
  - rewrite <- Hsc, scan_sum.
    unfold Spec.sentinel_bytes. rewrite Hl. simpl. rewrite Hs.
    replace (len src) with (Spec.size_of (l0 :: Spec.lines_of (handle r)))
      by (unfold Spec.size_of; now rewrite <- Hl, concat_lines_of).
    rewrite (size_of_split Spec.is_sentinel (l0 :: _)). simpl. rewrite Hs.
    simpl. lia.
Qed.

(** *** What is yielded *)

(** The messages yielded are built from a prefix of the payloads; the
    iteration ends with the payloads, or at the first one the library
    raises on. *)
Lemma emit_spec (ps : list bytes) :
  exists rest,
    ps = map payload (fst (Lines.emit E ps)) ++ rest
    /\ Forall (Lines.built E) (fst (Lines.emit E ps))
    /\ snd (Lines.emit E ps) <> NoFuel
    /\ (snd (Lines.emit E ps) = StopIteration <-> rest = [])
    /\ (snd (Lines.emit E ps) = Exception ->
        exists p rest', rest = p :: rest' /\ message_from_bytes E p = Exn).
Proof.
  induction ps as [|p ps (rest & Hps & Hb & Hf & Hs & He)]; simpl.
  - exists []. repeat split; try constructor; try discriminate; auto.
  - destruct (message_from_bytes E p) as [o|] eqn:Hp.
    + destruct (Lines.emit E ps) as [ms e]; simpl in *.
      exists rest. split; [now rewrite Hps at 1|].
      split; [constructor; [split; [exact Hp|reflexivity]|exact Hb]|].
      auto.
    + simpl. exists (p :: ps). repeat split; try constructor;
        try discriminate; eauto.
Qed.

Lemma emit_all (ps : list bytes) :
  Forall (Lines.parses E) ps ->
  snd (Lines.emit E ps) = StopIteration
  /\ map payload (fst (Lines.emit E ps)) = ps.
Proof.
  intros Hall. destruct (emit_spec ps) as (rest & Hps & _ & Hf & Hs & He).
  assert (Hst : snd (Lines.emit E ps) = StopIteration).
  { destruct (snd (Lines.emit E ps)); [reflexivity| |congruence].
    destruct (He eq_refl) as (p & rest' & -> & Hp).
    rewrite Forall_forall in Hall. destruct (Hall p); [|exact Hp].
    rewrite Hps. apply in_or_app. right. now left. }
  split; [exact Hst|]. apply Hs in Hst. subst rest.
  now rewrite app_nil_r in Hps.
Qed.

(** *** The records *)

Lemma stat_of_Ok (m : Message E) (s : StatisticsLine) :
  stat_of E m = Ok s ->
  count s = 1 /\ total_size_bytes s = _x_sz m
  /\ (getitem E (obj m) "From" = Ok None -> from_addr s = "None"%string)
  /\ (getitem E (obj m) "X-Gmail-Labels" = Ok None ->
      labels s = "None"%string).
Proof.
  unfold stat_of, bind.
  destruct (getitem E (obj m) "From") as [f|]; [|discriminate].
  destruct (getitem E (obj m) "To") as [t|]; [|discriminate].
  destruct (getitem E (obj m) "X-Gmail-Labels") as [l|]; [|discriminate].
  intros H. injection H as <-. simpl. repeat split.
  - intros H. injection H as ->. reflexivity.
  - intros H. injection H as ->. reflexivity.
Qed.

Lemma stat_of_Exn (m : Message E) :
  stat_of E m = Exn
  <-> getitem E (obj m) "From" = Exn \/ getitem E (obj m) "To" = Exn
      \/ getitem E (obj m) "X-Gmail-Labels" = Exn.
Proof.
  unfold stat_of, bind.
  destruct (getitem E (obj m) "From") as [f|]; [|tauto].
  destruct (getitem E (obj m) "To") as [t|]; [|tauto].
  destruct (getitem E (obj m) "X-Gmail-Labels") as [l|]; [|tauto].
  split; [discriminate|]. intros [H|[H|H]]; discriminate.
Qed.

Lemma stat_of_quiet (m : Message E) :
  Lines.built E m -> Lines.quiet E (payload m) -> stat_of E m <> Exn.
Proof.
  intros [Hb _] (o & Ho & Hf & Ht & Hl). rewrite Hb in Ho. injection Ho as <-.
  rewrite stat_of_Exn. tauto.
Qed.

(** The records come from a prefix of the messages; the loop ends as
    the reader does, or at the first message a lookup raises on. *)
Lemma read_loop_spec (msgs : list (Message E)) (e : ending) :
  exists done rest,
    msgs = done ++ rest
    /\ Forall2 (fun m s => stat_of E m = Ok s) done (fst (read_loop E msgs e))
    /\ ((rest = [] /\ snd (read_loop E msgs e) = e)
        \/ (exists m rest', rest = m :: rest' /\ stat_of E m = Exn
                            /\ snd (read_loop E msgs e) = Exception)).
Proof.
  induction msgs as [|m msgs (done & rest & Hm & Hf & Hc)]; simpl.
  - exists [], []. repeat split; [constructor|now left].
  - destruct (stat_of E m) as [s|] eqn:Hs.
    + destruct (read_loop E msgs e) as [ls e']; simpl in *.
      exists (m :: done), rest. split; [now rewrite Hm|].
      split; [now constructor|exact Hc].
    + exists [], (m :: msgs). simpl. split; [reflexivity|].
      split; [constructor|]. right. eauto.
Qed.

Lemma stats_sizes (done : list (Message E)) (recs : list StatisticsLine) :
  Forall2 (fun m s => stat_of E m = Ok s) done recs ->
  map total_size_bytes recs = map _x_sz done
  /\ map count recs = map (fun _ => 1) done
  /\ List.length recs = List.length done.
Proof.
  induction 1 as [|m s done recs Hs _ (IH1 & IH2 & IH3)]; simpl.
  - auto.
  - destruct (stat_of_Ok m s Hs) as (Hc & Hsz & _).
    now rewrite IH1, IH2, IH3, Hc, Hsz.
Qed.

Lemma built_sizes (ms : list (Message E)) :
  Forall (Lines.built E) ms -> map _x_sz ms = map len (map payload ms).
Proof.
  induction 1 as [|m ms [_ Hm] _ IH]; simpl; [reflexivity|].
  now rewrite Hm, IH.
Qed.

(** What [read_messages] yields on a well-formed source: the records of
    a prefix of its payloads.  It ends with the payloads, or at the
    first payload on which the parse or a lookup raises. *)
Lemma read_messages_spec (src : bytes) (r : MboxReader.t) :
  init src = Some r ->
  exists done rest,
    map Spec.content (Spec.records src) = map payload done ++ rest
    /\ Forall (Lines.built E) done
    /\ Forall2 (fun m s => stat_of E m = Ok s) done
               (fst (read_messages E r))
    /\ snd (read_messages E r) <> NoFuel
    /\ (snd (read_messages E r) = StopIteration <-> rest = [])
    /\ (snd (read_messages E r) = Exception ->
        exists p rest', rest = p :: rest' /\ ~ Lines.quiet E p).
Proof.
  intros Hi. destruct (scan_init src r Hi) as (Hsc & _).
  unfold read_messages. rewrite messages_emit, Hsc.
  destruct (emit_spec (map Spec.content (Spec.records src)))
    as (rest1 & Hps & Hb & Hf & Hs & He).
  destruct (Lines.emit E (map Spec.content (Spec.records src)))
    as [msgs e0]; simpl in *.
  destruct (read_loop_spec msgs e0) as (done & rest2 & Hm & Hf2 & Hc).
  destruct (read_loop E msgs e0) as [recs e]; simpl in *.
  exists done, (map payload rest2 ++ rest1).
  split; [rewrite Hps at 1; rewrite Hm, map_app; now rewrite app_assoc|].
  assert (Hbd : Forall (Lines.built E) done).
  { rewrite Hm in Hb. now apply Forall_app in Hb. }
  split; [exact Hbd|]. split; [exact Hf2|].
  destruct Hc as [[-> ->]|(m & rest' & -> & Hex & ->)]; simpl.
  - split; [exact Hf|]. split; [exact Hs|].
    intros He0. destruct (He He0) as (p & rest' & -> & Hp).
    exists p, rest'. split; [reflexivity|].
    intros (o & Ho & _). congruence.
  - split; [discriminate|]. split; [split; discriminate|].
    intros _. exists (payload m), (map payload rest' ++ rest1).
    split; [reflexivity|]. intros Hq.
    apply (stat_of_quiet m); try assumption.
    rewrite Hm in Hb. apply Forall_app in Hb as [_ Hb].
    now inversion Hb.
Qed.

Lemma quiet_finishes (src : bytes) (r : MboxReader.t) :
  init src = Some r ->
  Forall (Lines.quiet E) (map Spec.content (Spec.records src)) ->
  snd (read_messages E r) = StopIteration.
Proof.
  intros Hi Hq.
  destruct (read_messages_spec src r Hi) as (done & rest & Hps & _ & _ & Hf & _ & He).
  destruct (snd (read_messages E r)); [reflexivity| |congruence].
  destruct (He eq_refl) as (p & rest' & -> & Hp). destruct Hp.
  rewrite Forall_forall in Hq. apply Hq. rewrite Hps.
  apply in_or_app. right. now left.
Qed.

Lemma sum_Z_app (l1 l2 : list Z) :
  Spec.sum_Z (l1 ++ l2) = Spec.sum_Z l1 + Spec.sum_Z l2.
Proof. induction l1 as [|z l1 IH]; simpl; [reflexivity|]. rewrite IH. lia. Qed.

Lemma sum_len_nonneg (ps : list bytes) : 0 <= Spec.sum_Z (map len ps).
Proof.
  induction ps as [|p ps IH]; simpl; [lia|].
  pose proof (len_nonneg p). lia.
Qed.

End Scanner.

(** ** Claims on the boundary scanner *)

Section ScannerClaims.

Variable E : Email.

(** [main] by the way the records end. *)
Lemma main_cases (agg sort : bool) (src : bytes) (r : MboxReader.t) :
  init src = Some r ->
  main E agg sort src
  = match snd (read_messages E r) with
    | StopIteration =>
        Printed ((if sort then sort_stats else fun l => l)
                   ((if agg then agg_stats else fun l => l)
                      (fst (read_messages E r))))
    | Exception =>
        Crashed (if agg || sort then [] else fst (read_messages E r))
    | NoFuel => OutOfFuel
    end.
Proof.
  intros Hi. unfold main. rewrite Hi.
  destruct (read_messages E r) as [recs e].
  destruct agg, sort, e; reflexivity.
Qed.

(** C1, as amended: for a source whose first line starts with the
    sentinel, [read_messages] over the reader ends, normally when neither
    the parse nor a lookup raises on a record; when it ends normally the
    sizes of its records add up to the byte length of the source less the
    bytes of all its sentinel lines (the first one included), and when an
    exception ends it the records yielded before add up to no more. *)
Theorem C1_sizes_sum_without_sentinel_lines (src : bytes) (reader : MboxReader.t) :
  init src = Some reader ->
  exists recs e,
    read_messages E reader = (recs, e)
    /\ e <> NoFuel
    /\ (Forall (Lines.quiet E) (map Spec.content (Spec.records src)) ->
        e = StopIteration)
    /\ (e = StopIteration ->
        Spec.sum_size recs = len src - Spec.sentinel_bytes src)
    /\ 0 <= Spec.sum_size recs <= len src - Spec.sentinel_bytes src.
Proof.
  intros Hi.
  pose proof (quiet_finishes E src reader Hi) as Hq.
  destruct (read_messages_spec E src reader Hi)
    as (done & rest & Hps & Hb & Hf2 & Hf & Hs & _).
  destruct (scan_init src reader Hi) as (_ & _ & _ & Hsum).
  destruct (read_messages E reader) as [recs e]; simpl in *.
  exists recs, e. split; [reflexivity|]. split; [exact Hf|].
  split; [exact Hq|].
  destruct (stats_sizes E done recs Hf2) as (Hsz & _ & _).
  unfold Spec.sum_size. rewrite Hsz, (built_sizes E done Hb).
  rewrite Hps, map_app, sum_Z_app in Hsum.
  pose proof (sum_len_nonneg (map payload done)).
  pose proof (sum_len_nonneg rest).
  split; [|lia].
  intros He. apply Hs in He. subst rest. simpl in Hsum. lia.
Qed.

(** C2, as amended: the scanner ends on every well-formed source and
    emits the messages of its records in order, all of them unless the
    library raises on one; each message holds the record without its own
    leading delimiter line (and without the next one), its [_x_sz] is the
    byte length of exactly that, and after each yield the new buffer is
    empty. *)
Theorem C2_record_size_excludes_delimiter (src : bytes) (reader : MboxReader.t) :
  init src = Some reader ->
  exists msgs e emitted rest,
    messages E reader = (msgs, e)
    /\ Spec.records src = emitted ++ rest
    /\ map payload msgs = map Spec.content emitted
    /\ map _x_sz msgs
       = map (fun rec => Spec.size_of rec - len (hd [] rec)) emitted
    /\ Forall (fun rec => Spec.is_sentinel (hd [] rec) = true) (Spec.records src)
    /\ (forall g m g', step E g = Yield m g' -> g_lines g' = [])
    /\ e <> NoFuel
    /\ (e = StopIteration <-> rest = [])
    /\ (e = Exception ->
        exists rec rest',
          rest = rec :: rest' /\ message_from_bytes E (Spec.content rec) = Exn).
Proof.
  intros Hi. destruct (scan_init src reader Hi) as (Hsc & Hhd & _).
  rewrite messages_emit, Hsc.
  destruct (emit_spec E (map Spec.content (Spec.records src)))
    as (rest & Hps & Hb & Hf & Hs & He).
  destruct (Lines.emit E (map Spec.content (Spec.records src)))
    as [msgs e]; simpl in *.
  apply map_eq_app in Hps as (emitted & rest0 & Hr & He1 & He2).
  exists msgs, e, emitted, rest0. split; [reflexivity|].
  split; [exact Hr|]. split; [now rewrite He1|].
  split.
  { rewrite (built_sizes E msgs Hb), <- He1, !map_map.
    apply map_ext. intros rec. apply content_size. }
  split; [exact Hhd|]. split; [apply step_Yield_lines|].
  split; [exact Hf|]. subst rest. split.
  - rewrite Hs. destruct rest0; simpl; split; congruence.
  - intros Hx. destruct (He Hx) as (p & rest' & Hp & Hraise).
    destruct rest0 as [|rec rest0]; [discriminate|].
    injection Hp as <- _. eauto.
Qed.

Lemma emit_firstn (ps : list bytes) :
  forall n, Forall (Lines.parses E) (firstn n ps) ->
  (n <= List.length ps)%nat ->
  (n <= List.length (fst (Lines.emit E ps)))%nat.
Proof.
  induction ps as [|p ps IH]; intros [|n] Hall Hn; simpl in *; try lia.
  inversion Hall as [|? ? Hp Hall']; subst.
  destruct (message_from_bytes E p) as [o|] eqn:Ho; [|now destruct Hp].
  specialize (IH n Hall' ltac:(lia)).
  destruct (Lines.emit E ps) as [ms e]; simpl in *. lia.
Qed.

Lemma emit_nth (ps : list bytes) (k : nat) (m : Message E) :
  nth_error (fst (Lines.emit E ps)) k = Some m ->
  nth_error ps k = Some (payload m) /\ _x_sz m = len (payload m).
Proof.
  intros Hn. destruct (emit_spec E ps) as (rest & Hps & Hb & _).
  split.
  - rewrite Hps. rewrite nth_error_app1
      by (rewrite length_map; apply nth_error_Some; congruence).
    now apply map_nth_error.
  - rewrite Forall_forall in Hb. apply nth_error_In in Hn.
    apply Hb in Hn. exact (proj2 Hn).
Qed.

(** C9, as amended: at a boundary event met with an empty buffer the
    scanner hands the empty payload to the library and, when that
    returns, yields a message of length 0 (when it raises, the scan ends
    there); a source that is one sentinel line then yields exactly one
    empty message; and where two sentinel lines follow each other, the
    message of the first of them, whenever the scan yields it, is empty,
    and the scan does yield it when the library raises on no payload up
    to it. *)
Theorem C9_empty_buffer_yields_empty_record :
  (forall g,
     g_lines g = [] ->
     (let line := fst (readline (g_handle g)) in
      is_empty line || startswith line sentinel = true) ->
     match message_from_bytes E [] with
     | Ok o =>
         step E g = YieldStop (mkMessage [] o 0)
         \/ exists g', step E g = Yield (mkMessage [] o 0) g'
     | Exn => step E g = Raise
     end)
  /\ (forall s o,
        Spec.lines_of s = [s] -> Spec.is_sentinel s = true ->
        message_from_bytes E [] = Ok o ->
        exists r, init s = Some r
                  /\ messages E r = ([mkMessage [] o 0], StopIteration))
  /\ (forall src r l1 s1 s2 l2,
        init src = Some r ->
        Spec.lines_of src = l1 ++ s1 :: s2 :: l2 ->
        Spec.is_sentinel s1 = true -> Spec.is_sentinel s2 = true ->
        let k := List.length (filter Spec.is_sentinel l1) in
        (forall m, nth_error (fst (messages E r)) k = Some m ->
                   payload m = [] /\ _x_sz m = 0)
        /\ (Forall (Lines.parses E)
                   (firstn (S k) (map Spec.content (Spec.records src))) ->
            exists m, nth_error (fst (messages E r)) k = Some m
                      /\ payload m = [] /\ _x_sz m = 0)).
Proof.
  split; [|split].
  - intros [h buf]; simpl; intros -> Hb. unfold step; simpl.
    destruct (readline h) as [line h']; simpl in *. rewrite Hb.
    change (join []) with (@nil byte). change (len []) with 0.
    destruct (message_from_bytes E []); [|reflexivity].
    destruct (is_empty line); eauto.
  - intros s o Hl Hs Ho.
    assert (Hne : s <> []) by (intros ->; discriminate).
    rewrite (lines_of_readline s Hne) in Hl. injection Hl as H1 H2.
    unfold init. destruct (readline s) as [line rest]; simpl in *. subst line.
    unfold Spec.is_sentinel in Hs. rewrite Hs.
    eexists. split; [reflexivity|]. rewrite messages_emit. simpl.
    rewrite H2. simpl. change (join []) with (@nil byte). now rewrite Ho.
  - intros src r l1 s1 s2 l2 Hi Hl Hs1 Hs2 k.
    destruct (init_Some _ _ Hi) as (l0 & Hl0 & Hs0 & _).
    destruct (scan_init src r Hi) as (Hsc & _).
    assert (Hk : nth_error (Lines.scan [] (Spec.lines_of (handle r))) k
                 = Some []
                 /\ (S k <= List.length
                              (Lines.scan [] (Spec.lines_of (handle r))))%nat).
    { rewrite Hl in Hl0. subst k.
      destruct l1 as [|l l1]; simpl in Hl0; injection Hl0 as -> <-.
      - simpl. rewrite Hs2. simpl. split; [reflexivity|lia].
      - rewrite scan_app_sentinel by assumption.
        cbn [filter]. rewrite Hs0. cbn [List.length].
        rewrite <- (scan_length l1 []). cbn [Lines.scan]. rewrite Hs2.
        rewrite nth_error_app2 by lia. rewrite Nat.sub_diag.
        split; [reflexivity|]. rewrite length_app. simpl. lia. }
    destruct Hk as [Hk Hlen]. rewrite messages_emit.
    assert (Hempty : forall m,
               nth_error (fst (Lines.emit E
                                 (Lines.scan [] (Spec.lines_of (handle r))))) k
               = Some m -> payload m = [] /\ _x_sz m = 0).
    { intros m Hm. apply emit_nth in Hm as [Hp Hz].
      rewrite Hk in Hp. injection Hp as Hp. now rewrite Hz, <- Hp. }
    split; [exact Hempty|].
    intros Hall. rewrite <- Hsc in Hall.
    pose proof (emit_firstn _ (S k) Hall Hlen) as Hn.
    destruct (nth_error (fst (Lines.emit E
                (Lines.scan [] (Spec.lines_of (handle r))))) k) as [m|] eqn:Hm.
    + exists m. split; [reflexivity|]. now apply Hempty.
    + apply nth_error_None in Hm. lia.
Qed.

(** ** Claims on the construction of the reader *)

(** C4, as amended: constructing the reader fails exactly when the first
    line of the source does not start with the five bytes [From ] (nothing
    has to follow them); [main] then ends with the assertion error and has
    printed nothing, and otherwise it ends after printing or with an
    exception of the library; the empty source fails. *)
Theorem C4_init_fails_iff_no_sentinel_prefix (agg sort : bool) (src : bytes) :
  (init src = None <-> startswith (fst (readline src)) sentinel = false)
  /\ (main E agg sort src = AssertionError <-> init src = None)
  /\ (init src <> None ->
      exists lines, main E agg sort src = Printed lines
                    \/ main E agg sort src = Crashed lines)
  /\ init [] = None.
Proof.
  split; [apply init_None|].
  destruct (init src) as [r|] eqn:Hi.
  - rewrite (main_cases agg sort src r Hi).
    destruct (read_messages_spec E src r Hi) as (_ & _ & _ & _ & _ & Hf & _).
    destruct (snd (read_messages E r)); [| |congruence];
      (split; [split; discriminate|]); (split; [eauto|reflexivity]).
  - unfold main. rewrite Hi. repeat split; congruence.
Qed.

End ScannerClaims.

Lemma plain_quiet (p : bytes) : Lines.quiet Ex.plain p.
Proof. exists tt. repeat split; discriminate. Qed.

Lemma C1_witness :
  init Ex.one_message = Some (MboxReader.mk (b "body" ++ [LF]) 12)
  /\ exists recs e,
       read_messages Ex.plain (MboxReader.mk (b "body" ++ [LF]) 12) = (recs, e)
       /\ e <> NoFuel
       /\ (Forall (Lines.quiet Ex.plain)
                  (map Spec.content (Spec.records Ex.one_message)) ->
           e = StopIteration)
       /\ (e = StopIteration ->
           Spec.sum_size recs
           = len Ex.one_message - Spec.sentinel_bytes Ex.one_message)
       /\ 0 <= Spec.sum_size recs
            <= len Ex.one_message - Spec.sentinel_bytes Ex.one_message.
Proof.
  split; [reflexivity|].
  apply (C1_sizes_sum_without_sentinel_lines Ex.plain Ex.one_message).
  reflexivity.
Defined.

(** C1 as stated fails: on [From a\nbody\n] (12 bytes) the one record
    has size 5. *)
Lemma C1_counterexample :
  ~ (forall E src reader,
       init src = Some reader ->
       exists recs e, read_messages E reader = (recs, e)
                      /\ Spec.sum_size recs = len src).
Proof.
  intros H.
  destruct (H Ex.plain Ex.one_message _ eq_refl) as (recs & e & Hr & Hs).
  vm_compute in Hr. injection Hr as <- _. vm_compute in Hs. discriminate.
Qed.

Lemma C2_witness :
  exists msgs e emitted rest,
    messages Ex.plain (MboxReader.mk (b "body" ++ [LF]) 12) = (msgs, e)
    /\ Spec.records Ex.one_message = emitted ++ rest
    /\ map payload msgs = map Spec.content emitted
    /\ map _x_sz msgs
       = map (fun rec => Spec.size_of rec - len (hd [] rec)) emitted
    /\ Forall (fun rec => Spec.is_sentinel (hd [] rec) = true)
              (Spec.records Ex.one_message)
    /\ (forall g m g', step Ex.plain g = Yield m g' -> g_lines g' = [])
    /\ e <> NoFuel
    /\ (e = StopIteration <-> rest = [])
    /\ (e = Exception ->
        exists rec rest',
          rest = rec :: rest'
          /\ message_from_bytes Ex.plain (Spec.content rec) = Exn).
Proof.
  apply (C2_record_size_excludes_delimiter Ex.plain Ex.one_message).
  reflexivity.
Defined.

(** C2 as stated fails: on [From a\nbody\n] the record with its leading
    delimiter line has 12 bytes and the message has [_x_sz = 5]. *)
Lemma C2_counterexample :
  ~ (forall E src reader,
       init src = Some reader ->
       exists msgs e, messages E reader = (msgs, e)
                      /\ map _x_sz msgs = map Spec.size_of (Spec.records src)).
Proof.
  intros H.
  destruct (H Ex.plain Ex.one_message _ eq_refl) as (msgs & e & Hm & Hs).
  vm_compute in Hm. injection Hm as <- _. vm_compute in Hs. discriminate.
Qed.

Lemma C9_witness :
  (step Ex.plain (mkGen [] []) = YieldStop (@mkMessage Ex.plain [] tt 0)
   \/ exists g', step Ex.plain (mkGen [] []) = Yield (@mkMessage Ex.plain [] tt 0) g')
  /\ (exists r, init Ex.lone_sentinel = Some r
                /\ messages Ex.plain r = ([@mkMessage Ex.plain [] tt 0], StopIteration))
  /\ (exists m,
        nth_error
          (fst (messages Ex.plain
                  (MboxReader.mk (b "From b" ++ [LF] ++ b "x") 15))) 0
        = Some m
        /\ payload m = [] /\ _x_sz m = 0).
Proof.
  destruct (C9_empty_buffer_yields_empty_record Ex.plain) as (H1 & H2 & H3).
  split; [|split].
  - apply (H1 (mkGen [] [])); reflexivity.
  - apply (H2 Ex.lone_sentinel tt); reflexivity.
  - apply (H3 Ex.two_sentinels _ [] (b "From a" ++ [LF]) (b "From b" ++ [LF])
              [b "x"]); try reflexivity.
    repeat constructor; discriminate.
Defined.

(** C9 as stated fails: in [From a\nContent-Type: text/plain; name*\n\n
    From b\nFrom c\n] two sentinel lines follow each other, and with a
    library that raises on the first payload the scan yields nothing. *)
Lemma C9_counterexample :
  ~ (forall E src r l1 s1 s2 l2,
       init src = Some r ->
       Spec.lines_of src = l1 ++ s1 :: s2 :: l2 ->
       Spec.is_sentinel s1 = true -> Spec.is_sentinel s2 = true ->
       exists recs1 m recs2 e,
         messages E r = (recs1 ++ m :: recs2, e)
         /\ payload m = [] /\ _x_sz m = 0
         /\ List.length recs1 = List.length (filter Spec.is_sentinel l1)).
Proof.
  intros H.
  destruct (H Ex.fragile Ex.broken_then_empty _
              [b "From a" ++ [LF];
               b "Content-Type: text/plain; name*" ++ [LF]; [LF]]
              (b "From b" ++ [LF]) (b "From c" ++ [LF]) []
              eq_refl eq_refl eq_refl eq_refl)
    as (recs1 & m & recs2 & e & Hm & _).
  vm_compute in Hm. injection Hm as Hm _.
  destruct recs1; discriminate.
Qed.

Lemma C4_witness :
  (init Ex.one_message = None
   <-> startswith (fst (readline Ex.one_message)) sentinel = false)
  /\ (main Ex.plain false false Ex.one_message = AssertionError
      <-> init Ex.one_message = None)
  /\ (exists lines,
        main Ex.plain false false Ex.one_message = Printed lines
        \/ main Ex.plain false false Ex.one_message = Crashed lines)
  /\ init [] = None.
Proof.
  destruct (C4_init_fails_iff_no_sentinel_prefix Ex.plain false false
              Ex.one_message) as (H1 & H2 & H3 & H4).
  repeat split; try apply H1; try apply H2; try exact H4.
  apply H3. discriminate.
Defined.

(** C4 as stated fails: the source [From ] has the prefix and no token
    after it, and the reader is constructed. *)
Lemma C4_counterexample :
  ~ (forall src, init src = None <-> Spec.sentinel_with_token src = false).
Proof.
  intros H. destruct (H (b "From ")) as [_ H2].
  specialize (H2 eq_refl). discriminate.
Qed.

(** ** The stable sort *)

Section SortFacts.

Context {A : Type}.
Variable lt : A -> A -> bool.
Variable le : A -> A -> Prop.

Hypothesis lt_le : forall x y, lt x y = true -> le x y.
Hypothesis nlt_le : forall x y, lt y x = false -> le x y.

Lemma insert_perm (x : A) (l : list A) : Permutation (Py.insert lt x l) (x :: l).
Proof.
  induction l as [|y l IH]; simpl; [reflexivity|].
  destruct (lt y x); [|reflexivity].
  rewrite IH. apply perm_swap.
Qed.

Lemma sorted_perm (l : list A) : Permutation (Py.sorted lt l) l.
Proof.
  induction l as [|x l IH]; simpl; [reflexivity|].
  rewrite insert_perm. now constructor.
Qed.

Lemma insert_Sorted (x : A) (l : list A) :
  Sorted le l -> Sorted le (Py.insert lt x l).
Proof.
  induction 1 as [|y l Hs IH Hd]; simpl.
  - repeat constructor.
  - destruct (lt y x) eqn:E.
    + constructor; [assumption|].
      destruct Hd as [|z l' Hz]; simpl.
      * constructor. now apply lt_le.
      * destruct (lt z x); constructor; [assumption|now apply lt_le].
    + constructor; [constructor; assumption|].
      constructor. now apply nlt_le.
Qed.

Lemma sorted_Sorted (l : list A) : Sorted le (Py.sorted lt l).
Proof.
  induction l as [|x l IH]; simpl; [constructor|].
  now apply insert_Sorted.
Qed.

(** An element that is not above the head stays in front. *)
Hypothesis le_nlt : forall x y, le x y -> lt y x = false.

Lemma sorted_fixed (l : list A) : Sorted le l -> Py.sorted lt l = l.
Proof.
  induction 1 as [|x l Hs IH Hd]; simpl; [reflexivity|].
  rewrite IH. destruct Hd as [|y l' Hy]; simpl; [reflexivity|].
  now rewrite (le_nlt _ _ Hy).
Qed.

(** Stability, for a class [p] of elements that [lt] does not relate. *)
Variable p : A -> bool.
Hypothesis p_class : forall x y, lt y x = true -> p y = true -> p x = false.

Lemma insert_filter (x : A) (l : list A) :
  filter p (Py.insert lt x l) = filter p (x :: l).
Proof.
  induction l as [|y l IH]; simpl; [reflexivity|].
  destruct (lt y x) eqn:E; [|reflexivity].
  simpl. rewrite IH. simpl.
  destruct (p y) eqn:Ey; [|reflexivity].
  now rewrite (p_class _ _ E Ey).
Qed.

Lemma sorted_filter (l : list A) : filter p (Py.sorted lt l) = filter p l.
Proof.
  induction l as [|x l IH]; simpl; [reflexivity|].
  rewrite insert_filter. simpl. now rewrite IH.
Qed.

End SortFacts.

(** A strongly sorted list is the only sorted arrangement of its
    elements when the order is antisymmetric. *)
Lemma sorted_unique {A : Type} (le : A -> A -> Prop) :
  (forall x y, le x y -> le y x -> x = y) ->
  forall l1 l2 : list A,
  StronglySorted le l1 -> StronglySorted le l2 -> Permutation l1 l2 -> l1 = l2.
Proof.
  intros anti. induction l1 as [|x l1 IH]; intros l2 H1 H2 Hp.
  - apply Permutation_nil in Hp. now subst.
  - destruct l2 as [|y l2].
    + symmetry in Hp. apply Permutation_nil in Hp. discriminate.
    + inversion H1 as [|? ? Hs1 Hf1]; inversion H2 as [|? ? Hs2 Hf2]; subst.
      assert (x = y) as ->.
      { assert (Hx : In x (y :: l2))
          by (eapply Permutation_in; [exact Hp|now left]).
        assert (Hy : In y (x :: l1))
          by (eapply Permutation_in; [symmetry; exact Hp|now left]).
        destruct Hx as [->|Hx]; [reflexivity|].
        destruct Hy as [->|Hy]; [reflexivity|].
        rewrite Forall_forall in Hf1, Hf2. apply anti; auto. }
      f_equal. apply IH; auto. now apply Permutation_cons_inv in Hp.
Qed.

(** ** [sort_stats] *)

Section SortStats.

(** C7: [sort_stats] returns the same multiset, ascending by
    [total_size_bytes], with the records of equal size in their original
    order; sorting its output again changes nothing. *)
Theorem C7_sort_stats_stable_ascending (ms : list StatisticsLine) :
  Permutation (sort_stats ms) ms
  /\ StronglySorted Spec.size_le (sort_stats ms)
  /\ (forall sz, Spec.of_size sz (sort_stats ms) = Spec.of_size sz ms)
  /\ sort_stats (sort_stats ms) = sort_stats ms.
Proof.
  assert (Hs : Sorted Spec.size_le (sort_stats ms)).
  { apply sorted_Sorted; unfold Spec.size_le; intros x y H;
      [apply Z.ltb_lt in H|apply Z.ltb_ge in H]; lia. }
  split; [apply sorted_perm|]. split; [|split].
  - apply Sorted_StronglySorted; [|exact Hs].
    unfold Spec.size_le. intros x y z. lia.
  - intros sz. apply sorted_filter. intros x y H Hy.
    apply Z.ltb_lt in H. apply Z.eqb_eq in Hy. apply Z.eqb_neq. lia.
  - apply (sorted_fixed _ Spec.size_le); [|exact Hs].
    unfold Spec.size_le. intros x y H. apply Z.ltb_ge. lia.
Qed.

End SortStats.

(** ** The label normaliser *)

Section Labels.

Local Open Scope string_scope.

Lemma split_nonempty (sep : ascii) (s : string) : Py.split sep s <> [].
Proof.
  destruct s as [|c s]; simpl; [discriminate|].
  destruct (Ascii.eqb c sep); [discriminate|].
  destruct (Py.split sep s); discriminate.
Qed.

(** Joining the tokens with the separator gives the string back. *)
Lemma join_split (sep : ascii) (s : string) :
  Py.join (String sep "") (Py.split sep s) = s.
Proof.
  unfold Py.join. induction s as [|c s IH]; simpl; [reflexivity|].
  destruct (Ascii.eqb_spec c sep) as [->|Hne].
  - pose proof (split_nonempty sep s) as Hn.
    destruct (Py.split sep s) as [|t ts]; [congruence|].
    simpl in *. now rewrite IH.
  - pose proof (split_nonempty sep s) as Hn.
    destruct (Py.split sep s) as [|t ts]; [congruence|].
    rewrite <- IH. destruct ts; reflexivity.
Qed.

(** No token holds the separator. *)
Lemma split_no_sep (sep : ascii) (s : string) :
  Forall (fun tok => Spec.mem sep tok = false) (Py.split sep s).
Proof.
  induction s as [|c s IH]; simpl.
  - repeat constructor.
  - destruct (Ascii.eqb c sep) eqn:E.
    + constructor; [reflexivity|assumption].
    + destruct (Py.split sep s) as [|t ts]; inversion IH; subst;
        constructor; simpl; try rewrite E; auto.
Qed.

Lemma filter_gmail_loop (l : list string) :
  forall acc,
  fold_left
    (fun good_labels x =>
       if existsb (String.eqb x) ["Inbox"; "Important"; "Opened"] then good_labels
       else if Py.startswith x "Category " then good_labels
       else (good_labels ++ [x])%list)
    l acc
  = (acc ++ filter (fun x => negb (Spec.boring x)) l)%list.
Proof.
  induction l as [|x l IH]; intros acc; simpl fold_left; simpl filter.
  - now rewrite app_nil_r.
  - rewrite IH. unfold Spec.boring, Py.startswith. simpl existsb.
    destruct (x =? "Inbox"), (x =? "Important"), (x =? "Opened"),
      (String.prefix "Category " x); simpl; try reflexivity.
    now rewrite <- app_assoc.
Qed.

Lemma filter_gmail_labels_filter (s : string) :
  filter_gmail_labels s
  = filter (fun x => negb (Spec.boring x)) (Py.split "," s).
Proof. unfold filter_gmail_labels. now rewrite filter_gmail_loop. Qed.

Lemma ltb_leb (x y : string) : String.ltb x y = true -> Spec.str_le x y.
Proof.
  unfold String.ltb, Spec.str_le, String.leb.
  destruct (String.compare x y); congruence.
Qed.

Lemma nltb_leb (x y : string) : String.ltb y x = false -> Spec.str_le x y.
Proof.
  unfold String.ltb, Spec.str_le, String.leb.
  rewrite (String.compare_antisym x y).
  destruct (String.compare y x); simpl; congruence.
Qed.

Lemma str_le_iff (x y : string) :
  Spec.str_le x y <-> x = y \/ OrderedTypeEx.String_as_OT.lt x y.
Proof.
  unfold Spec.str_le, String.leb.
  pose proof (OrderedTypeEx.String_as_OT.cmp_eq x y) as He.
  pose proof (OrderedTypeEx.String_as_OT.cmp_lt x y) as Hl.
  pose proof (OrderedTypeEx.String_as_OT.cmp_lt y x) as Hg.
  pose proof (OrderedTypeEx.String_as_OT.cmp_antisym y x) as Ha.
  unfold OrderedTypeEx.String_as_OT.cmp in *.
  destruct (String.compare x y) eqn:E.
  - split; [intros _; left; now apply He|reflexivity].
  - split; [intros _; right; now apply Hl|reflexivity].
  - split; [discriminate|]. intros [H|H].
    + apply He in H. discriminate.
    + apply Hl in H. discriminate.
Qed.

Lemma str_le_trans (x y z : string) :
  Spec.str_le x y -> Spec.str_le y z -> Spec.str_le x z.
Proof.
  rewrite !str_le_iff. intros [->|H1] [->|H2]; auto.
  right. eapply OrderedTypeEx.String_as_OT.lt_trans; eassumption.
Qed.

(** C5: the label string of a record is obtained by splitting the header
    on commas, dropping the tokens equal to [Inbox], [Important] or
    [Opened] or starting with [Category ], arranging what is left in
    lexicographic order (there is one such arrangement) and joining with
    commas; nothing is deduplicated. *)
Theorem C5_label_string_sorted_filtered (s : string) :
  let kept := filter (fun x => negb (Spec.boring x)) (Py.split "," s) in
  filter_gmail_labels s = kept
  /\ Py.join "," (Py.split "," s) = s
  /\ Forall (fun tok => Spec.mem "," tok = false) (Py.split "," s)
  /\ (exists toks,
        label_string s = Py.join "," toks
        /\ Permutation toks kept
        /\ StronglySorted Spec.str_le toks
        /\ forall toks', Permutation toks' kept ->
                         StronglySorted Spec.str_le toks' -> toks' = toks)
  /\ label_string "Work,Work" = "Work,Work"
  /\ label_string "Inbox,Important,Category Personal,Work" = "Work".
Proof.
  intros kept. split; [apply filter_gmail_labels_filter|].
  split; [apply join_split|]. split; [apply split_no_sep|].
  split; [|split; reflexivity].
  exists (Py.sorted String.ltb kept).
  assert (Hs : StronglySorted Spec.str_le (Py.sorted String.ltb kept)).
  { apply Sorted_StronglySorted; [exact str_le_trans|].
    apply sorted_Sorted; [exact ltb_leb|exact nltb_leb]. }
  split; [unfold label_string; now rewrite filter_gmail_labels_filter|].
  split; [apply sorted_perm|]. split; [exact Hs|].
  intros toks' Hp Hs'. apply (sorted_unique Spec.str_le); auto.
  - exact String.leb_antisym.
  - rewrite Hp. symmetry. apply sorted_perm.
Qed.

End Labels.

(** ** The address normaliser *)

Section Address.

Local Open Scope string_scope.
Import Span.

Lemma span_not_app (cs : list ascii) (s : string) :
  fst (span_not cs s) ++ snd (span_not cs s) = s.
Proof.
  induction s as [|c s IH]; simpl; [reflexivity|].
  destruct (in_class cs c); [reflexivity|].
  destruct (span_not cs s); simpl in *. now rewrite IH.
Qed.

Lemma span_not_avoids (cs : list ascii) (s : string) :
  avoids cs (fst (span_not cs s)) = true.
Proof.
  induction s as [|c s IH]; simpl; [reflexivity|].
  destruct (in_class cs c) eqn:E; [reflexivity|].
  destruct (span_not cs s); simpl in *. now rewrite E, IH.
Qed.

Lemma span_not_rest (cs : list ascii) (s : string) :
  match snd (span_not cs s) with
  | EmptyString => True
  | String c _ => in_class cs c = true
  end.
Proof.
  induction s as [|c s IH]; simpl; [exact I|].
  destruct (in_class cs c) eqn:E; [exact E|].
  destruct (span_not cs s); exact IH.
Qed.

Lemma span_not_unique (cs : list ascii) (m : string) (c : ascii) (r : string) :
  avoids cs m = true -> in_class cs c = true ->
  span_not cs (m ++ String c r) = (m, String c r).
Proof.
  intros Hm Hc. induction m as [|a m IH]; simpl in *.
  - now rewrite Hc.
  - apply andb_prop in Hm as [Ha Hm]. apply negb_true_iff in Ha.
    rewrite Ha, (IH Hm). reflexivity.
Qed.

(** The greedy, backtracking [[^cs]+] takes the longest run whenever its
    continuation cannot go on from inside a run. *)
Lemma plus_not_span {A : Type} (cs : list ascii) (s : string) :
  forall k : string -> string -> option A,
  (forall m r, stuck cs r -> k m r = None) ->
  Re.plus_not cs s k
  = match fst (span_not cs s) with
    | EmptyString => None
    | m => k m (snd (span_not cs s))
    end.
Proof.
  induction s as [|c s IH]; intros k Hk; simpl; [reflexivity|].
  fold (in_class cs c). destruct (in_class cs c) eqn:E; [reflexivity|].
  rewrite IH by (intros m r Hr; now apply Hk).
  pose proof (span_not_app cs s) as Happ.
  pose proof (span_not_avoids cs s) as Hav.
  destruct (span_not cs s) as [m r]; simpl in *.
  destruct m as [|a m]; simpl in *.
  - now subst.
  - destruct (k (String c (String a m)) r) eqn:Ek; [reflexivity|].
    apply Hk. subst s. simpl.
    apply andb_prop in Hav as [Ha _]. now apply negb_true_iff in Ha.
Qed.

Lemma avoids_gt_at (m : string) :
  avoids [">"; "@"]%char m = true
  <-> Spec.mem ">" m = false /\ Spec.mem "@" m = false.
Proof.
  induction m as [|c m IH]; simpl; [tauto|].
  unfold in_class. simpl.
  rewrite andb_true_iff, IH, negb_true_iff, !orb_false_iff. tauto.
Qed.

Lemma avoids_gt (m : string) :
  avoids [">"]%char m = true <-> Spec.mem ">" m = false.
Proof.
  induction m as [|c m IH]; simpl; [tauto|].
  unfold in_class. simpl.
  rewrite andb_true_iff, IH, negb_true_iff, !orb_false_iff. tauto.
Qed.

(** [match_at] on a string that starts with a bracketed address. *)
Lemma match_at_complete (local domain rest : string) :
  Spec.form1 local domain ->
  Re.match_at ("<" ++ local ++ "@" ++ domain ++ ">" ++ rest)
  = Some (local ++ "@" ++ domain, rest).
Proof.
  intros [(Hl1 & Hl2 & Hd) [Hln Hdn]].
  unfold Re.match_at. simpl.
  rewrite plus_not_span.
  2:{ intros m [|c r] Hr; simpl; [reflexivity|].
      unfold stuck, in_class in Hr. simpl in Hr.
      apply orb_false_iff in Hr as [_ Hr]. apply orb_false_iff in Hr as [Hr _].
      now rewrite Hr. }
  rewrite span_not_unique;
    [|now apply avoids_gt_at|reflexivity].
  simpl. destruct local as [|a local]; [congruence|].
  simpl. rewrite plus_not_span.
  2:{ intros m [|c r] Hr; simpl; [reflexivity|].
      unfold stuck, in_class in Hr. simpl in Hr.
      apply orb_false_iff in Hr as [Hr _]. now rewrite Hr. }
  rewrite span_not_unique; [|now apply avoids_gt|reflexivity].
  simpl. destruct domain as [|d domain]; [congruence|]. reflexivity.
Qed.

(** Whatever [match_at] finds is a bracketed address at the start. *)
Lemma match_at_sound (s g rest : string) :
  Re.match_at s = Some (g, rest) ->
  exists local domain,
    Spec.form1 local domain
    /\ s = "<" ++ local ++ "@" ++ domain ++ ">" ++ rest
    /\ g = local ++ "@" ++ domain.
Proof.
  unfold Re.match_at. destruct s as [|c s]; simpl; [discriminate|].
  destruct (Ascii.eqb_spec c "<") as [->|]; [|discriminate].
  rewrite plus_not_span.
  2:{ intros m [|c r] Hr; simpl; [reflexivity|].
      unfold stuck, in_class in Hr. simpl in Hr.
      apply orb_false_iff in Hr as [_ Hr]. apply orb_false_iff in Hr as [Hr _].
      now rewrite Hr. }
  pose proof (span_not_app [">"; "@"]%char s) as Happ.
  pose proof (span_not_avoids [">"; "@"]%char s) as Hav.
  destruct (span_not [">"; "@"]%char s) as [local s2]; cbn [fst snd] in *.
  apply avoids_gt_at in Hav.
  destruct local as [|a local]; [discriminate|].
  destruct s2 as [|c2 s3]; [discriminate|]. cbn [Re.lit].
  destruct (Ascii.eqb_spec c2 "@") as [->|]; [|discriminate].
  rewrite plus_not_span.
  2:{ intros m [|c r] Hr; simpl; [reflexivity|].
      unfold stuck, in_class in Hr. simpl in Hr.
      apply orb_false_iff in Hr as [Hr _]. now rewrite Hr. }
  pose proof (span_not_app [">"]%char s3) as Happ3.
  pose proof (span_not_avoids [">"]%char s3) as Hav3.
  destruct (span_not [">"]%char s3) as [domain s4]; cbn [fst snd] in *.
  apply avoids_gt in Hav3.
  destruct domain as [|d domain]; [discriminate|].
  destruct s4 as [|c4 s5]; [discriminate|]. cbn [Re.lit].
  destruct (Ascii.eqb_spec c4 ">") as [->|]; [|discriminate].
  intros H. injection H as <- <-.
  exists (String a local), (String d domain).
  split; [|split].
  - destruct Hav. repeat split; try assumption; discriminate.
  - subst s s3. reflexivity.
  - reflexivity.
Qed.

Lemma findall_match (s g rest : string) :
  Re.match_at s = Some (g, rest) -> exists more, Re.findall s = g :: more.
Proof.
  unfold Re.findall. intros H.
  destruct s; cbn [Re.findall_aux]; rewrite H; eauto.
Qed.

Lemma findall_skip (c : ascii) (s : string) :
  Re.match_at (String c s) = None -> Re.findall (String c s) = Re.findall s.
Proof. unfold Re.findall. intros H. cbn [Re.findall_aux]. now rewrite H. Qed.

Lemma bracketed_cons (c : ascii) (x pre local domain post : string) :
  Spec.bracketed x pre local domain post ->
  Spec.bracketed (String c x) (String c pre) local domain post.
Proof. unfold Spec.bracketed. intros ->. reflexivity. Qed.

Lemma bracketed_here (x local domain post : string) :
  Spec.bracketed x "" local domain post -> Spec.form1 local domain ->
  Re.match_at x = Some (local ++ "@" ++ domain, post).
Proof. unfold Spec.bracketed. intros -> H. now apply match_at_complete. Qed.

Lemma match_at_bracketed (x g rest : string) :
  Re.match_at x = Some (g, rest) ->
  exists local domain,
    Spec.bracketed x "" local domain rest /\ Spec.form1 local domain
    /\ g = local ++ "@" ++ domain.
Proof.
  intros H. apply match_at_sound in H as (l & d & Hf & Hx & Hg).
  exists l, d. auto.
Qed.

(** [findall] starts with the first bracketed address. *)
Lemma findall_first (pre : string) :
  forall x local domain post,
  Spec.bracketed x pre local domain post -> Spec.form1 local domain ->
  (forall pre' l' d' post',
     Spec.bracketed x pre' l' d' post' -> Spec.form1 l' d' ->
     (String.length pre <= String.length pre')%nat) ->
  exists more, Re.findall x = (local ++ "@" ++ domain) :: more.
Proof.
  induction pre as [|c pre IH]; intros x local domain post Hb Hf Hmin.
  - eapply findall_match.
    apply (bracketed_here x local domain post); assumption.
  - unfold Spec.bracketed in Hb. simpl in Hb. subst x.
    rewrite findall_skip.
    + apply (IH _ local domain post);
        [unfold Spec.bracketed; reflexivity|assumption|].
      intros pre' l' d' post' Hb' Hf'.
      specialize (Hmin (String c pre') l' d' post'
                       (bracketed_cons c _ _ _ _ _ Hb') Hf').
      simpl in Hmin. lia.
    + match goal with |- ?m = None => destruct m as [[g rest]|] eqn:Em end;
        [|reflexivity].
      apply match_at_bracketed in Em as (l' & d' & Hb' & Hf' & _).
      specialize (Hmin "" l' d' post) as Hmin0.
      specialize (Hmin "" l' d' rest Hb' Hf'). simpl in Hmin. lia.
Qed.

(** Without a bracketed address [findall] finds nothing. *)
Lemma findall_none (x : string) :
  (forall pre l d post, Spec.bracketed x pre l d post -> ~ Spec.form1 l d) ->
  Re.findall x = [].
Proof.
  induction x as [|c x IH]; intros Hno; [reflexivity|].
  rewrite findall_skip.
  - apply IH. intros pre l d post Hb.
    exact (Hno _ _ _ _ (bracketed_cons c _ _ _ _ _ Hb)).
  - destruct (Re.match_at (String c x)) as [[g rest]|] eqn:Em; [|reflexivity].
    apply match_at_bracketed in Em as (l' & d' & Hb' & Hf' & _).
    now destruct (Hno _ _ _ _ Hb' Hf').
Qed.

Lemma bracketed_mem (x pre l d post : string) :
  Spec.bracketed x pre l d post -> Spec.mem "<" x = true.
Proof.
  unfold Spec.bracketed. intros ->.
  induction pre as [|c pre IH]; simpl in *; [reflexivity|].
  rewrite IH. apply orb_true_r.
Qed.

End Address.

Section AddressClaims.

Local Open Scope string_scope.

(** A string has a first bracketed address or none at all. *)
Lemma first_or_none (x : string) :
  (exists pre local domain post,
     Spec.bracketed x pre local domain post /\ Spec.form1 local domain
     /\ forall pre' l' d' post',
          Spec.bracketed x pre' l' d' post' -> Spec.form1 l' d' ->
          (String.length pre <= String.length pre')%nat)
  \/ (forall pre l d post, Spec.bracketed x pre l d post -> ~ Spec.form1 l d).
Proof.
  induction x as [|c x IH].
  - right. intros pre l d post Hb. unfold Spec.bracketed in Hb.
    destruct pre; discriminate.
  - destruct (Re.match_at (String c x)) as [[g rest]|] eqn:Em.
    + left. apply match_at_bracketed in Em as (l & d & Hb & Hf & _).
      exists "", l, d, rest. repeat split; try assumption; try apply Hf.
      intros. simpl. lia.
    + assert (Hhere : forall l d post,
                 Spec.bracketed (String c x) "" l d post -> ~ Spec.form1 l d).
      { intros l d post Hb Hf. rewrite (bracketed_here _ _ _ _ Hb Hf) in Em.
        discriminate. }
      destruct IH as [(pre & l & d & post & Hb & Hf & Hmin)|Hno].
      * left. exists (String c pre), l, d, post.
        split; [now apply bracketed_cons|]. split; [assumption|].
        intros [|c' pre'] l' d' post' Hb' Hf'.
        -- now destruct (Hhere _ _ _ Hb' Hf').
        -- unfold Spec.bracketed in Hb'. simpl in Hb'. injection Hb' as _ Hb'.
           specialize (Hmin pre' l' d' post' Hb' Hf'). simpl. lia.
      * right. intros [|c' pre] l d post Hb Hf.
        -- now destruct (Hhere _ _ _ Hb Hf).
        -- unfold Spec.bracketed in Hb. simpl in Hb. injection Hb as _ Hb.
           exact (Hno _ _ _ _ Hb Hf).
Qed.

(** C6, as amended: [extract_address x] is the inner text of the first
    substring [<local@domain>] of [x] in which [local] is not empty and
    holds neither [>] nor [@] and [domain] is not empty and holds no [>];
    when [x] has no such substring it is [x] itself; one of the two cases
    always applies. *)
Theorem C6_extract_address_first_bracketed (x : string) :
  (forall pre local domain post,
     Spec.bracketed x pre local domain post -> Spec.form1 local domain ->
     (forall pre' l' d' post',
        Spec.bracketed x pre' l' d' post' -> Spec.form1 l' d' ->
        (String.length pre <= String.length pre')%nat) ->
     extract_address x = local ++ "@" ++ domain)
  /\ ((forall pre l d post, Spec.bracketed x pre l d post -> ~ Spec.form1 l d) ->
      extract_address x = x)
  /\ ((exists pre local domain post,
         Spec.bracketed x pre local domain post /\ Spec.form1 local domain
         /\ forall pre' l' d' post',
              Spec.bracketed x pre' l' d' post' -> Spec.form1 l' d' ->
              (String.length pre <= String.length pre')%nat)
      \/ (forall pre l d post, Spec.bracketed x pre l d post -> ~ Spec.form1 l d))
  /\ extract_address "Jane Doe <jane@example.com>" = "jane@example.com"
  /\ extract_address "noreply" = "noreply".
Proof.
  split; [|split; [|split; [apply first_or_none|split; reflexivity]]].
  - intros pre local domain post Hb Hf Hmin.
    destruct (findall_first pre x local domain post Hb Hf Hmin) as [more Hm].
    unfold extract_address. now rewrite Hm.
  - intros Hno. unfold extract_address. now rewrite findall_none.
Qed.

Lemma C6_witness :
  extract_address "<a@b>" = "a" ++ "@" ++ "b"
  /\ extract_address "noreply" = "noreply".
Proof.
  split.
  - apply (proj1 (C6_extract_address_first_bracketed "<a@b>") "" "a" "b" "").
    + reflexivity.
    + repeat split; discriminate.
    + intros. simpl. lia.
  - apply (proj1 (proj2 (C6_extract_address_first_bracketed "noreply"))).
    intros pre l d post Hb _. apply bracketed_mem in Hb. discriminate.
Defined.

(** C6 as stated fails: in [<@b>] the brackets hold [local@domain] with
    an empty [local], which holds neither [>] nor [@], and the string is
    returned unchanged. *)
Lemma C6_counterexample :
  ~ (forall x,
       (forall pre local domain post,
          Spec.bracketed x pre local domain post -> Spec.form local domain ->
          (forall pre' l' d' post',
             Spec.bracketed x pre' l' d' post' -> Spec.form l' d' ->
             (String.length pre <= String.length pre')%nat) ->
          extract_address x = local ++ "@" ++ domain)
       /\ ((forall pre l d post,
              Spec.bracketed x pre l d post -> ~ Spec.form l d) ->
           extract_address x = x)).
Proof.
  intros H. destruct (H "<@b>") as [H1 _].
  specialize (H1 "" "" "b" "" eq_refl).
  assert (Hf : Spec.form "" "b") by (repeat split).
  specialize (H1 Hf). discriminate H1. intros. simpl. lia.
Qed.

End AddressClaims.

(** ** Absent headers *)

Section AbsentHeaders.

Local Open Scope string_scope.

Variable E : Email.

(** C8, as amended: the record of a message is produced exactly when
    none of the three lookups ([From], [To], [X-Gmail-Labels]) raises;
    then a message without [From] gets the sender "None" and a message
    without [X-Gmail-Labels] gets the label string "None", and the loop
    goes on with the next message.  An exception of a lookup is not
    caught: the loop ends there. *)
Theorem C8_absent_headers_become_None (msg : Message E) :
  (stat_of E msg = Exn
   <-> getitem E (obj msg) "From" = Exn \/ getitem E (obj msg) "To" = Exn
       \/ getitem E (obj msg) "X-Gmail-Labels" = Exn)
  /\ (getitem E (obj msg) "From" <> Exn ->
      getitem E (obj msg) "To" <> Exn ->
      getitem E (obj msg) "X-Gmail-Labels" <> Exn ->
      exists s,
        stat_of E msg = Ok s
        /\ count s = 1 /\ total_size_bytes s = _x_sz msg
        /\ (getitem E (obj msg) "From" = Ok None -> from_addr s = "None")
        /\ (getitem E (obj msg) "X-Gmail-Labels" = Ok None ->
            labels s = "None")
        /\ forall rest e,
             read_loop E (msg :: rest) e
             = (s :: fst (read_loop E rest e), snd (read_loop E rest e)))
  /\ (stat_of E msg = Exn ->
      forall rest e, read_loop E (msg :: rest) e = ([], Exception)).
Proof.
  split; [apply stat_of_Exn|]. split.
  - intros Hf Ht Hl.
    destruct (stat_of E msg) as [s|] eqn:Hs.
    + exists s. split; [reflexivity|].
      destruct (stat_of_Ok E msg s Hs) as (Hc & Hsz & Hfrom & Hlab).
      repeat split; try assumption.
      intros rest e. simpl. rewrite Hs.
      now destruct (read_loop E rest e).
    + apply stat_of_Exn in Hs. tauto.
  - intros Hs rest e. simpl. now rewrite Hs.
Qed.

End AbsentHeaders.

Lemma C8_witness :
  exists s,
    stat_of Ex.plain (@mkMessage Ex.plain (b "body") tt 4) = Ok s
    /\ count s = 1 /\ total_size_bytes s = 4
    /\ from_addr s = "None"%string /\ labels s = "None"%string.
Proof.
  destruct (proj1 (proj2 (C8_absent_headers_become_None Ex.plain
                            (@mkMessage Ex.plain (b "body") tt 4))))
    as (s & Hs & Hc & Hsz & Hf & Hl & _); try discriminate.
  exists s. repeat split; auto.
Defined.

(** C8 as stated fails: a message that holds [To: <] and neither [From]
    nor [X-Gmail-Labels] gives no record when the lookup of [To]
    raises. *)
Lemma C8_counterexample :
  ~ (forall E (msg : Message E),
       getitem E (obj msg) "From" = Ok None
       \/ getitem E (obj msg) "X-Gmail-Labels" = Ok None ->
       exists s,
         stat_of E msg = Ok s
         /\ (getitem E (obj msg) "From" = Ok None ->
             from_addr s = "None"%string)
         /\ (getitem E (obj msg) "X-Gmail-Labels" = Ok None ->
             labels s = "None"%string)).
Proof.
  intros H.
  destruct (H Ex.fragile Ex.lone_To (or_introl eq_refl)) as (s & Hs & _).
  discriminate.
Qed.

(** ** The aggregator *)

Lemma filter_twice {A : Type} (f g : A -> bool) (l : list A) :
  filter f (filter g l) = filter (fun x => f x && g x) l.
Proof.
  induction l as [|x l IH]; simpl; [reflexivity|].
  destruct (g x); simpl; rewrite ?andb_false_r, ?andb_true_r;
    [destruct (f x)|]; now rewrite IH.
Qed.

Section DictFacts.

Lemma key_eqb_spec (k1 k2 : DefaultDict.key) : reflect (k1 = k2) (DefaultDict.key_eqb k1 k2).
Proof.
  destruct k1 as [a1 b1], k2 as [a2 b2]. unfold DefaultDict.key_eqb. simpl.
  destruct (String.eqb_spec a1 a2), (String.eqb_spec b1 b2); simpl;
    constructor; congruence.
Qed.

Lemma key_eqb_refl (k : DefaultDict.key) : DefaultDict.key_eqb k k = true.
Proof. now destruct (key_eqb_spec k k). Qed.

Lemma key_eqb_sym (k1 k2 : DefaultDict.key) : DefaultDict.key_eqb k1 k2 = DefaultDict.key_eqb k2 k1.
Proof.
  destruct (key_eqb_spec k1 k2), (key_eqb_spec k2 k1); congruence.
Qed.

Lemma existsb_key_In (k : DefaultDict.key) (ks : list DefaultDict.key) :
  existsb (DefaultDict.key_eqb k) ks = true <-> In k ks.
Proof.
  rewrite existsb_exists. split.
  - intros (k' & Hin & He). now destruct (key_eqb_spec k k'); subst.
  - intros Hin. exists k. split; [assumption|apply key_eqb_refl].
Qed.

Lemma add_keys (k : DefaultDict.key) (v : Z) (d : DefaultDict.t) :
  map fst (DefaultDict.add k v d)
  = map fst d ++ (if existsb (DefaultDict.key_eqb k) (map fst d) then [] else [k]).
Proof.
  induction d as [|[k' a] d IH]; simpl; [reflexivity|].
  destruct (DefaultDict.key_eqb k k'); simpl.
  - now rewrite app_nil_r.
  - now rewrite IH.
Qed.

Lemma add_sum (k : DefaultDict.key) (v : Z) (d : DefaultDict.t) :
  Spec.sum_Z (map snd (DefaultDict.add k v d)) = Spec.sum_Z (map snd d) + v.
Proof.
  induction d as [|[k' a] d IH]; simpl; [lia|].
  destruct (DefaultDict.key_eqb k k'); simpl; lia.
Qed.

Lemma get_add (k' k : DefaultDict.key) (v : Z) (d : DefaultDict.t) :
  DefaultDict.get k' (DefaultDict.add k v d)
  = DefaultDict.get k' d + (if DefaultDict.key_eqb k k' then v else 0).
Proof.
  induction d as [|[k1 a] d IH]; simpl.
  - rewrite (key_eqb_sym k' k). destruct (DefaultDict.key_eqb k k'); lia.
  - destruct (key_eqb_spec k k1) as [->|Hne]; simpl.
    + rewrite (key_eqb_sym k' k1). destruct (DefaultDict.key_eqb k1 k'); lia.
    + destruct (key_eqb_spec k' k1) as [->|Hne']; [|exact IH].
      destruct (key_eqb_spec k k1); [congruence|lia].
Qed.

Lemma get_In (d : DefaultDict.t) :
  NoDup (map fst d) -> forall k v, In (k, v) d -> DefaultDict.get k d = v.
Proof.
  induction d as [|[k1 a] d IH]; simpl; intros Hnd k v Hin; [easy|].
  inversion Hnd as [|? ? Hnotin Hnd']; subst.
  destruct Hin as [Heq|Hin].
  - injection Heq as -> ->. now rewrite key_eqb_refl.
  - destruct (key_eqb_spec k k1) as [->|_]; [|now apply IH].
    destruct Hnotin. change k1 with (fst (k1, v)). now apply in_map.
Qed.

Lemma get_items (d : DefaultDict.t) :
  NoDup (map fst d) -> map (fun kv => DefaultDict.get (fst kv) d) d = map snd d.
Proof.
  intros Hnd. apply map_ext_in. intros [k v] Hin. simpl.
  now apply get_In.
Qed.

(** The loop of [agg_stats] for one of its two dicts; [f] is the field
    that is summed. *)
Variable f : StatisticsLine -> Z.

Lemma fold_keys (ms : list StatisticsLine) :
  forall d,
  map fst (fold_left (fun d m => DefaultDict.add (key m) (f m) d) ms d)
  = map fst d
    ++ filter (fun k => negb (existsb (DefaultDict.key_eqb k) (map fst d)))
              (Spec.first_occurrences (map key ms)).
Proof.
  induction ms as [|m ms IH]; intros d; simpl.
  - now rewrite app_nil_r.
  - rewrite IH, add_keys.
    destruct (existsb (DefaultDict.key_eqb (key m)) (map fst d)) eqn:E; simpl.
    + rewrite !app_nil_r. f_equal.
      rewrite filter_twice. apply filter_ext. intros k.
      destruct (existsb (DefaultDict.key_eqb k) (map fst d)) eqn:Ek;
        [reflexivity|].
      simpl. destruct (key_eqb_spec k (key m)); [congruence|reflexivity].
    + rewrite <- app_assoc. simpl. f_equal. f_equal.
      rewrite filter_twice. apply filter_ext. intros k.
      rewrite existsb_app. simpl. now rewrite orb_false_r, negb_orb.
Qed.

Lemma fold_sum (ms : list StatisticsLine) :
  forall d,
  Spec.sum_Z (map snd (fold_left (fun d m => DefaultDict.add (key m) (f m) d) ms d))
  = Spec.sum_Z (map snd d) + Spec.sum_Z (map f ms).
Proof.
  induction ms as [|m ms IH]; intros d; simpl; [lia|].
  rewrite IH, add_sum. lia.
Qed.

Lemma fold_get (k : DefaultDict.key) (ms : list StatisticsLine) :
  forall d,
  DefaultDict.get k (fold_left (fun d m => DefaultDict.add (key m) (f m) d) ms d)
  = DefaultDict.get k d + Spec.sum_Z (map f (Spec.with_key k ms)).
Proof.
  induction ms as [|m ms IH]; intros d; simpl; [lia|].
  rewrite IH, get_add. destruct (DefaultDict.key_eqb (key m) k); simpl; lia.
Qed.

End DictFacts.

Section FirstOccurrences.

Lemma first_occurrences_In (ks : list DefaultDict.key) (k : DefaultDict.key) :
  In k (Spec.first_occurrences ks) <-> In k ks.
Proof.
  induction ks as [|k0 ks IH]; simpl; [tauto|].
  rewrite filter_In, IH.
  destruct (key_eqb_spec k k0) as [->|Hne]; simpl; intuition congruence.
Qed.

Lemma first_occurrences_NoDup (ks : list DefaultDict.key) :
  NoDup (Spec.first_occurrences ks).
Proof.
  induction ks as [|k0 ks IH]; simpl; constructor.
  - rewrite filter_In, key_eqb_refl. simpl. intros [_ H]. discriminate.
  - now apply NoDup_filter.
Qed.

(** A key joins the end of the list exactly when it is new. *)
Lemma first_occurrences_snoc (ks : list DefaultDict.key) (k : DefaultDict.key) :
  Spec.first_occurrences (ks ++ [k])
  = Spec.first_occurrences ks
    ++ (if existsb (DefaultDict.key_eqb k) ks then [] else [k]).
Proof.
  induction ks as [|k0 ks IH]; simpl; [reflexivity|].
  rewrite IH, filter_app. f_equal. f_equal.
  destruct (key_eqb_spec k k0) as [->|Hne]; simpl.
  - destruct (existsb _ ks); simpl; [reflexivity|].
    now rewrite key_eqb_refl.
  - destruct (existsb _ ks); simpl; [reflexivity|].
    destruct (key_eqb_spec k k0); [congruence|reflexivity].
Qed.

End FirstOccurrences.

Section AggStats.

Lemma agg_fold_split (ms : list StatisticsLine) :
  forall sizes counts,
  agg_fold ms (sizes, counts)
  = (fold_left (fun d m => DefaultDict.add (key m) (total_size_bytes m) d)
               ms sizes,
     fold_left (fun d m => DefaultDict.add (key m) (count m) d) ms counts).
Proof.
  unfold agg_fold.
  induction ms as [|m ms IH]; intros sizes counts; simpl; [reflexivity|].
  apply IH.
Qed.

Lemma key_of_item (c sz : Z) (k : DefaultDict.key) :
  key (mkStat c sz (fst k) (snd k)) = k.
Proof. now destruct k. Qed.

Lemma agg_stats_unfold (ms : list StatisticsLine) :
  agg_stats ms
  = map (fun kv =>
           mkStat (DefaultDict.get (fst kv)
                     (fold_left
                        (fun d m => DefaultDict.add (key m) (count m) d) ms []))
                  (snd kv) (fst (fst kv)) (snd (fst kv)))
        (fold_left
           (fun d m => DefaultDict.add (key m) (total_size_bytes m) d) ms []).
Proof.
  unfold agg_stats. rewrite agg_fold_split. unfold DefaultDict.items.
  apply map_ext. now intros [k sz].
Qed.

Lemma agg_stats_keys (ms : list StatisticsLine) :
  map key (agg_stats ms) = Spec.first_occurrences (map key ms).
Proof.
  rewrite agg_stats_unfold, map_map.
  erewrite map_ext by (intros kv; apply key_of_item).
  rewrite fold_keys. simpl. apply filter_true.
Qed.

End AggStats.

Section AggClaims.

Lemma counts_keys (ms : list StatisticsLine) :
  map fst (fold_left (fun d m => DefaultDict.add (key m) (count m) d) ms [])
  = Spec.first_occurrences (map key ms).
Proof. rewrite fold_keys. simpl. apply filter_true. Qed.

Lemma sizes_keys (ms : list StatisticsLine) :
  map fst (fold_left
             (fun d m => DefaultDict.add (key m) (total_size_bytes m) d) ms [])
  = Spec.first_occurrences (map key ms).
Proof. rewrite fold_keys. simpl. apply filter_true. Qed.

(** The keys listed twice give the same sum: once looked up in the counts
    and once read off its items. *)
Lemma sum_get_keys (d : DefaultDict.t) :
  NoDup (map fst d) ->
  Spec.sum_Z (map (fun k => DefaultDict.get k d) (map fst d))
  = Spec.sum_Z (map snd d).
Proof. intros Hnd. now rewrite map_map, get_items. Qed.

(** C3: [agg_stats] has exactly one record per distinct
    [(from_addr, labels)] of its input; the counts and the sizes of the
    output add up to those of the input, and each record carries the sums
    over the inputs of its key. *)
Theorem C3_agg_stats_one_per_key_conserves_sums (ms : list StatisticsLine) :
  NoDup (map key (agg_stats ms))
  /\ (forall k, In k (map key (agg_stats ms)) <-> In k (map key ms))
  /\ Spec.sum_count (agg_stats ms) = Spec.sum_count ms
  /\ Spec.sum_size (agg_stats ms) = Spec.sum_size ms
  /\ (forall r, In r (agg_stats ms) ->
        count r = Spec.sum_count (Spec.with_key (key r) ms)
        /\ total_size_bytes r = Spec.sum_size (Spec.with_key (key r) ms)).
Proof.
  split; [rewrite agg_stats_keys; apply first_occurrences_NoDup|].
  split; [intros k; rewrite agg_stats_keys; apply first_occurrences_In|].
  pose proof (first_occurrences_NoDup (map key ms)) as Hnd.
  split; [|split].
  - unfold Spec.sum_count. rewrite agg_stats_unfold, map_map. simpl.
    rewrite <- (map_map fst (fun k => DefaultDict.get k _)).
    rewrite sizes_keys, <- counts_keys, sum_get_keys
      by (now rewrite counts_keys).
    now rewrite fold_sum.
  - unfold Spec.sum_size. rewrite agg_stats_unfold, map_map. simpl.
    now rewrite fold_sum.
  - intros r. rewrite agg_stats_unfold, in_map_iff.
    intros ([k sz] & <- & Hin). simpl. rewrite key_of_item.
    split.
    + now rewrite fold_get.
    + apply get_In in Hin; [|now rewrite sizes_keys].
      rewrite fold_get in Hin. simpl in Hin. now subst sz.
Qed.

(** C10: the records of [agg_stats] stand in the order in which their
    keys first occur in the input; a key enters that order, at its end,
    exactly when it has not occurred before. *)
Theorem C10_agg_stats_first_occurrence_order (ms : list StatisticsLine) :
  map key (agg_stats ms) = Spec.first_occurrences (map key ms)
  /\ (forall m,
        map key (agg_stats (ms ++ [m]))
        = map key (agg_stats ms)
          ++ (if existsb (DefaultDict.key_eqb (key m)) (map key ms)
              then [] else [key m])).
Proof.
  split; [apply agg_stats_keys|].
  intros m. rewrite !agg_stats_keys, map_app. simpl.
  apply first_occurrences_snoc.
Qed.

(** The scenario of three messages of 100, 200 and 300 bytes from one
    sender with the label strings "", "Work" and "Work". *)
Example agg_then_sort_scenario :
  sort_stats
    (agg_stats [mkStat 1 200 "a@x.com" "Work"; mkStat 1 100 "a@x.com" "";
                mkStat 1 300 "a@x.com" "Work"])
  = [mkStat 1 100 "a@x.com" ""; mkStat 2 500 "a@x.com" "Work"].
Proof. reflexivity. Qed.

End AggClaims.

(** * Further properties *)

(** ** The scanner as a whole *)

Section ScannerProperties.

Variable E : Email.

Lemma startswith_length (l prefix : bytes) :
  startswith l prefix = true -> (List.length prefix <= List.length l)%nat.
Proof.
  revert l. induction prefix as [|p prefix IH]; intros l; simpl; [lia|].
  destruct l as [|c l]; [discriminate|].
  intros H. apply andb_prop in H as [_ H]. apply IH in H. simpl. lia.
Qed.

Lemma weave_scan (ls : list bytes) :
  forall buf,
  Layout.weave (Lines.scan buf ls) (filter Spec.is_sentinel ls)
  = List.concat buf ++ List.concat ls.
Proof.
  induction ls as [|l ls IH]; intros buf; simpl.
  - reflexivity.
  - destruct (Spec.is_sentinel l); simpl.
    + rewrite IH. reflexivity.
    + rewrite IH, concat_app, <- app_assoc. simpl. now rewrite app_nil_r.
Qed.

(** X1: [read_messages] yields at most one record per line of the
    source that starts with the sentinel, wherever that line stands:
    exactly one per such line, and so at least one, when it ends
    normally, which it does when neither the parse nor a lookup raises
    on a record, and fewer when an exception ends it. *)
Theorem X1_one_record_per_sentinel_line (src : bytes) (reader : MboxReader.t) :
  init src = Some reader ->
  exists recs e,
    read_messages E reader = (recs, e)
    /\ (List.length recs
        <= List.length (filter Spec.is_sentinel (Spec.lines_of src)))%nat
    /\ (e = StopIteration ->
        List.length recs
        = List.length (filter Spec.is_sentinel (Spec.lines_of src))
        /\ (1 <= List.length recs)%nat)
    /\ (e = Exception ->
        (List.length recs
         < List.length (filter Spec.is_sentinel (Spec.lines_of src)))%nat)
    /\ (Forall (Lines.quiet E) (map Spec.content (Spec.records src)) ->
        e = StopIteration).
Proof.
  intros Hi.
  pose proof (quiet_finishes E src reader Hi) as Hq.
  destruct (read_messages_spec E src reader Hi)
    as (done & rest & Hps & Hb & Hf2 & Hf & Hs & He).
  destruct (scan_init src reader Hi) as (_ & _ & Hlen & _).
  destruct (init_Some _ _ Hi) as (l0 & Hl & Hs0 & _).
  destruct (read_messages E reader) as [recs e]; simpl in *.
  exists recs, e. split; [reflexivity|].
  destruct (stats_sizes E done recs Hf2) as (_ & _ & Hn).
  apply (f_equal (@List.length bytes)) in Hps.
  rewrite length_app, !length_map, Hlen in Hps.
  split; [lia|]. split; [|split; [|exact Hq]].
  - intros Hx. apply Hs in Hx. subst rest. simpl in Hps.
    split; [lia|]. rewrite Hn, <- Nat.add_0_r, <- Hps, Hl. simpl.
    rewrite Hs0. simpl. lia.
  - intros Hx. destruct (He Hx) as (p & rest' & -> & _). simpl in Hps. lia.
Qed.

(** X2: when the scan ends normally nothing but delimiter lines is lost
    and nothing is reordered: there is one payload more than there are
    sentinel lines after the first line, and the first line, then the
    payloads of the messages, each followed by the sentinel line that
    closed it, make up the source again.  The scan ends normally when
    the library raises on no payload. *)
Theorem X2_source_reassembled_from_payloads (src : bytes) (reader : MboxReader.t) :
  init src = Some reader ->
  (forall msgs,
     messages E reader = (msgs, StopIteration) ->
     List.length msgs
     = S (List.length (filter Spec.is_sentinel (Spec.lines_of (handle reader))))
     /\ src = fst (readline src)
              ++ Layout.weave (map payload msgs)
                   (filter Spec.is_sentinel (Spec.lines_of (handle reader))))
  /\ (Forall (Lines.parses E) (map Spec.content (Spec.records src)) ->
      exists msgs, messages E reader = (msgs, StopIteration)).
Proof.
  intros Hi. destruct (scan_init src reader Hi) as (Hsc & _).
  rewrite messages_emit. split.
  - intros msgs Hm.
    destruct (emit_spec E (Lines.scan [] (Spec.lines_of (handle reader))))
      as (rest & Hps & _ & _ & Hs & _).
    rewrite Hm in Hps, Hs. simpl in Hps, Hs.
    rewrite (proj1 Hs eq_refl), app_nil_r in Hps.
    split.
    + rewrite <- (length_map payload), <- Hps. apply scan_length.
    + rewrite <- Hps, weave_scan. simpl. rewrite concat_lines_of.
      unfold init in Hi. rewrite <- (readline_app src) at 1.
      destruct (readline src) as [line rest0]; simpl in *.
      destruct (startswith line sentinel); [|discriminate].
      now injection Hi as <-.
  - intros Hall. rewrite <- Hsc in Hall.
    destruct (emit_all E _ Hall) as [He _].
    destruct (Lines.emit E (Lines.scan [] (Spec.lines_of (handle reader))))
      as [msgs e]; simpl in *. subst e. now exists msgs.
Qed.

(** X3: the loop of [__next__] stops normally exactly at the end of the
    file and every other turn that goes on consumes at least one byte of
    the handle; what it yields is the library's object for the join of
    the buffer, with the length of that join attached, and it ends with
    the exception when the library raises on that join. *)
Theorem X3_step_consumes_or_stops (g : gen) :
  match step E g with
  | YieldStop m =>
      g_handle g = [] /\ payload m = join (g_lines g) /\ Lines.built E m
  | Yield m g' =>
      (List.length (g_handle g') < List.length (g_handle g))%nat
      /\ payload m = join (g_lines g) /\ Lines.built E m
  | Append g' =>
      (List.length (g_handle g') < List.length (g_handle g))%nat
      /\ exists line, line <> [] /\ g_lines g' = g_lines g ++ [line]
                      /\ line ++ g_handle g' = g_handle g
  | Raise => message_from_bytes E (join (g_lines g)) = Exn
  end.
Proof.
  unfold step.
  pose proof (readline_length (g_handle g)) as Hlen.
  pose proof (readline_app (g_handle g)) as Happ.
  pose proof (readline_nil_iff (g_handle g)) as Hnil.
  destruct (readline (g_handle g)) as [line h']; cbn [fst snd] in *.
  destruct line as [|c line]; cbn [is_empty orb].
  - destruct (message_from_bytes E (join (g_lines g))) as [o|] eqn:Ho;
      [|reflexivity].
    split; [now apply Hnil|]. split; [reflexivity|]. now split.
  - cbn [List.length] in Hlen.
    destruct (startswith (c :: line) sentinel).
    + destruct (message_from_bytes E (join (g_lines g))) as [o|] eqn:Ho;
        [|reflexivity].
      cbn [g_handle g_lines payload].
      split; [lia|]. split; [reflexivity|]. now split.
    + cbn [g_handle g_lines]. split; [lia|]. exists (c :: line).
      split; [discriminate|split; [reflexivity|exact Happ]].
Qed.

(** X4: a reader that was constructed stands behind the first line, on a
    source of at least five bytes: its size is the length of the source,
    it is not zero, and its position lies between 5 and the size. *)
Theorem X4_reader_size_and_position (src : bytes) (reader : MboxReader.t) :
  init src = Some reader ->
  size reader = len src
  /\ size reader <> 0
  /\ pos reader = len (fst (readline src))
  /\ 5 <= pos reader <= size reader.
Proof.
  unfold init, pos. intros Hi.
  pose proof (readline_length src) as Hlen.
  destruct (readline src) as [line rest]; simpl in *.
  destruct (startswith line sentinel) eqn:Hs; [|discriminate].
  injection Hi as <-. simpl. apply startswith_length in Hs.
  unfold len. change (List.length sentinel) with 5%nat in Hs. lia.
Qed.

End ScannerProperties.

Lemma X1_witness :
  exists recs e,
    read_messages Ex.plain (MboxReader.mk (b "From b" ++ [LF] ++ b "x") 15)
    = (recs, e)
    /\ (List.length recs
        <= List.length (filter Spec.is_sentinel
                          (Spec.lines_of Ex.two_sentinels)))%nat
    /\ (e = StopIteration ->
        List.length recs
        = List.length (filter Spec.is_sentinel
                         (Spec.lines_of Ex.two_sentinels))
        /\ (1 <= List.length recs)%nat)
    /\ (e = Exception ->
        (List.length recs
         < List.length (filter Spec.is_sentinel
                          (Spec.lines_of Ex.two_sentinels)))%nat)
    /\ (Forall (Lines.quiet Ex.plain)
               (map Spec.content (Spec.records Ex.two_sentinels)) ->
        e = StopIteration).
Proof.
  apply (X1_one_record_per_sentinel_line Ex.plain Ex.two_sentinels).
  reflexivity.
Defined.

Lemma X2_witness :
  List.length (fst (messages Ex.plain (MboxReader.mk (b "body" ++ [LF]) 12)))
  = S (List.length (filter Spec.is_sentinel (Spec.lines_of (b "body" ++ [LF]))))
  /\ Ex.one_message
     = fst (readline Ex.one_message)
       ++ Layout.weave
            (map payload
               (fst (messages Ex.plain (MboxReader.mk (b "body" ++ [LF]) 12))))
            (filter Spec.is_sentinel (Spec.lines_of (b "body" ++ [LF]))).
Proof.
  apply (proj1 (X2_source_reassembled_from_payloads Ex.plain Ex.one_message
                  (MboxReader.mk (b "body" ++ [LF]) 12) eq_refl)).
  reflexivity.
Defined.

Lemma X4_witness :
  size (MboxReader.mk (b "body" ++ [LF]) 12) = len Ex.one_message
  /\ size (MboxReader.mk (b "body" ++ [LF]) 12) <> 0
  /\ pos (MboxReader.mk (b "body" ++ [LF]) 12)
     = len (fst (readline Ex.one_message))
  /\ 5 <= pos (MboxReader.mk (b "body" ++ [LF]) 12)
       <= size (MboxReader.mk (b "body" ++ [LF]) 12).
Proof.
  apply (X4_reader_size_and_position Ex.one_message). reflexivity.
Defined.

(** ** The label string as a canonical form *)

Section LabelProperties.

Local Open Scope string_scope.

Lemma split_token (sep : ascii) (tok : string) :
  Spec.mem sep tok = false -> Py.split sep tok = [tok].
Proof.
  induction tok as [|c tok IH]; simpl; [reflexivity|].
  destruct (Ascii.eqb c sep); simpl; [discriminate|].
  intros H. now rewrite IH.
Qed.

Lemma split_app (sep : ascii) (tok rest : string) :
  Spec.mem sep tok = false ->
  Py.split sep (tok ++ String sep rest) = tok :: Py.split sep rest.
Proof.
  induction tok as [|c tok IH]; simpl.
  - now rewrite Ascii.eqb_refl.
  - destruct (Ascii.eqb c sep); simpl; [discriminate|].
    intros H. now rewrite IH.
Qed.

(** Splitting undoes joining, but for the empty list. *)
Lemma split_join (sep : ascii) (toks : list string) :
  toks <> [] -> Forall (fun tok => Spec.mem sep tok = false) toks ->
  Py.split sep (Py.join (String sep "") toks) = toks.
Proof.
  unfold Py.join. induction toks as [|tok toks IH]; [congruence|].
  intros _ Hf. inversion Hf as [|? ? Htok Hrest]; subst.
  destruct toks as [|tok' toks].
  - simpl. now apply split_token.
  - change (String.concat (String sep "") (tok :: tok' :: toks))
      with (tok ++ String sep (String.concat (String sep "") (tok' :: toks))).
    rewrite split_app by assumption.
    now rewrite IH by (congruence || assumption).
Qed.

Lemma Permutation_filter_str (keep : string -> bool) (l1 l2 : list string) :
  Permutation l1 l2 -> Permutation (filter keep l1) (filter keep l2).
Proof.
  induction 1 as [|x l1 l2 _ IH|x y l|l1 l2 l3 _ IH1 _ IH2]; simpl.
  - constructor.
  - destruct (keep x); [now constructor|assumption].
  - destruct (keep x), (keep y); try reflexivity. apply perm_swap.
  - now transitivity (filter keep l2).
Qed.

Lemma str_le_nltb (x y : string) : Spec.str_le x y -> String.ltb y x = false.
Proof.
  unfold String.ltb, Spec.str_le, String.leb.
  rewrite (String.compare_antisym x y).
  destruct (String.compare y x); simpl; congruence.
Qed.

Lemma sorted_strings_Sorted (l : list string) :
  Sorted Spec.str_le (Py.sorted String.ltb l).
Proof. apply sorted_Sorted; [exact ltb_leb|exact nltb_leb]. Qed.

(** The tokens of a label string: the labels that were kept, in order;
    a lone empty token when none was. *)
Lemma label_string_tokens (s : string) :
  let kept := Py.sorted String.ltb (filter_gmail_labels s) in
  Py.split "," (label_string s) = match kept with [] => [""] | _ => kept end.
Proof.
  intros kept. unfold label_string. fold kept.
  destruct kept as [|tok toks] eqn:E; [reflexivity|].
  apply split_join; [discriminate|]. rewrite <- E.
  pose proof (split_no_sep "," s) as Hns. rewrite Forall_forall in *.
  intros tok0 Hin. apply Hns.
  apply (Permutation_in _ (sorted_perm String.ltb _)) in Hin.
  rewrite filter_gmail_labels_filter in Hin. now apply filter_In in Hin.
Qed.

Lemma kept_not_boring (s : string) :
  Forall (fun tok => Spec.boring tok = false)
         (Py.sorted String.ltb (filter_gmail_labels s)).
Proof.
  rewrite Forall_forall. intros tok Hin.
  apply (Permutation_in _ (sorted_perm String.ltb _)) in Hin.
  rewrite filter_gmail_labels_filter in Hin. apply filter_In in Hin.
  now apply negb_true_iff.
Qed.

Lemma filter_all {A : Type} (f : A -> bool) (l : list A) :
  Forall (fun x => f x = true) l -> filter f l = l.
Proof.
  induction 1 as [|x l Hx _ IH]; simpl; [reflexivity|].
  now rewrite Hx, IH.
Qed.

(** X5: normalising a label string again changes nothing. *)
Theorem X5_label_string_idempotent (s : string) :
  label_string (label_string s) = label_string s.
Proof.
  pose proof (label_string_tokens s) as Ht. cbv zeta in Ht.
  pose proof (kept_not_boring s) as Hb.
  pose proof (sorted_strings_Sorted (filter_gmail_labels s)) as Hs.
  unfold label_string at 1. rewrite filter_gmail_labels_filter, Ht.
  destruct (Py.sorted String.ltb (filter_gmail_labels s)) as [|tok toks] eqn:E.
  - unfold label_string. now rewrite E.
  - rewrite filter_all.
    + rewrite (sorted_fixed String.ltb Spec.str_le str_le_nltb _ Hs).
      unfold label_string. now rewrite E.
    + revert Hb. apply Forall_impl. intros a Ha. now rewrite Ha.
Qed.

(** X6: the label string depends on the labels of the header only, not
    on the order in which the header lists them. *)
Theorem X6_label_string_order_insensitive (s1 s2 : string) :
  Permutation (Py.split "," s1) (Py.split "," s2) ->
  label_string s1 = label_string s2.
Proof.
  intros Hp. unfold label_string. f_equal.
  rewrite !filter_gmail_labels_filter.
  apply (sorted_unique Spec.str_le String.leb_antisym).
  - apply Sorted_StronglySorted; [exact str_le_trans|].
    apply sorted_strings_Sorted.
  - apply Sorted_StronglySorted; [exact str_le_trans|].
    apply sorted_strings_Sorted.
  - rewrite !sorted_perm. now apply Permutation_filter_str.
Qed.

(** X7: no token of a label string is one of the labels the normaliser
    drops, and the tokens stand in ascending order. *)
Theorem X7_label_string_tokens_kept_sorted (s : string) :
  Forall (fun tok => Spec.boring tok = false) (Py.split "," (label_string s))
  /\ StronglySorted Spec.str_le (Py.split "," (label_string s)).
Proof.
  pose proof (label_string_tokens s) as Ht. cbv zeta in Ht. rewrite Ht.
  pose proof (kept_not_boring s) as Hb.
  pose proof (sorted_strings_Sorted (filter_gmail_labels s)) as Hs.
  destruct (Py.sorted String.ltb (filter_gmail_labels s)) as [|tok toks].
  - split; repeat constructor.
  - split; [exact Hb|].
    apply Sorted_StronglySorted; [exact str_le_trans|exact Hs].
Qed.

End LabelProperties.

Lemma X6_witness : label_string "b,Inbox,a" = label_string "a,b,Inbox".
Proof.
  apply X6_label_string_order_insensitive. simpl.
  apply Permutation_sym.
  apply (Permutation_cons_app ["b"; "Inbox"] []). simpl.
  apply perm_skip. apply perm_skip. constructor.
Defined.

(** ** What [extract_address] returns *)

Section AddressProperties.

Local Open Scope string_scope.

Lemma str_app_assoc (x y z : string) : (x ++ y) ++ z = x ++ y ++ z.
Proof. induction x as [|c x IH]; simpl; [reflexivity|now rewrite IH]. Qed.

Lemma mem_app (c : ascii) (x y : string) :
  Spec.mem c (x ++ y) = Spec.mem c x || Spec.mem c y.
Proof.
  induction x as [|a x IH]; simpl; [reflexivity|].
  now rewrite IH, orb_assoc.
Qed.

Lemma bracketed_mem_gt (x pre l d post : string) :
  Spec.bracketed x pre l d post -> Spec.mem ">" x = true.
Proof.
  unfold Spec.bracketed. intros ->.
  rewrite !mem_app. simpl. rewrite !orb_true_r. reflexivity.
Qed.

(** The two ways [extract_address] ends. *)
Lemma extract_address_cases (x : string) :
  extract_address x = x
  \/ exists pre local domain post,
       Spec.bracketed x pre local domain post /\ Spec.form1 local domain
       /\ extract_address x = local ++ "@" ++ domain.
Proof.
  destruct (first_or_none x) as [(pre & l & d & post & Hb & Hf & Hmin)|Hno].
  - right. exists pre, l, d, post. split; [assumption|]. split; [assumption|].
    destruct (findall_first pre x l d post Hb Hf Hmin) as [more Hm].
    unfold extract_address. now rewrite Hm.
  - left. unfold extract_address. now rewrite findall_none.
Qed.

(** X8: extracting from an extracted address changes nothing. *)
Theorem X8_extract_address_idempotent (x : string) :
  extract_address (extract_address x) = extract_address x.
Proof.
  destruct (extract_address_cases x)
    as [He|(pre & l & d & post & Hb & [(Hl1 & Hl2 & Hd) _] & ->)].
  - now rewrite !He.
  - unfold extract_address at 1. rewrite findall_none; [reflexivity|].
    intros pre' l' d' post' Hb' _. apply bracketed_mem_gt in Hb'.
    rewrite !mem_app in Hb'. simpl in Hb'. rewrite Hl1, Hd in Hb'.
    discriminate.
Qed.

(** X9: the result is the input itself, or a text that stood between
    [<] and [>] in the input, holds an [@] and holds no [>]; it is empty
    only for the empty input. *)
Theorem X9_extract_address_shape (x : string) :
  (extract_address x = x
   \/ (exists pre post, x = pre ++ "<" ++ extract_address x ++ ">" ++ post)
      /\ Spec.mem "@" (extract_address x) = true
      /\ Spec.mem ">" (extract_address x) = false)
  /\ (extract_address x = "" -> x = "").
Proof.
  destruct (extract_address_cases x)
    as [He|(pre & l & d & post & Hb & [(Hl1 & Hl2 & Hd) [Hln _]] & He)].
  - split; [now left|]. now rewrite He.
  - rewrite He. split.
    + right. split; [|split].
      * exists pre, post. unfold Spec.bracketed in Hb. rewrite Hb.
        now rewrite !str_app_assoc.
      * rewrite !mem_app. simpl. apply orb_true_r.
      * rewrite !mem_app. simpl. now rewrite Hl1, Hd.
    + destruct l; [congruence|discriminate].
Qed.

End AddressProperties.

(** ** [agg_stats] in closed form *)

Section AggProperties.

Lemma dict_rebuild (d : DefaultDict.t) :
  NoDup (map fst d) ->
  d = map (fun k => (k, DefaultDict.get k d)) (map fst d).
Proof.
  intros Hnd. rewrite map_map. rewrite <- (map_id d) at 1.
  apply map_ext_in. intros [k v] Hin. simpl.
  now rewrite (get_In d Hnd k v Hin).
Qed.

Lemma agg_stats_closed (ms : list StatisticsLine) :
  agg_stats ms
  = map (Layout.group ms) (Spec.first_occurrences (map key ms)).
Proof.
  rewrite agg_stats_unfold.
  pose proof (sizes_keys ms) as Hk.
  pose proof (first_occurrences_NoDup (map key ms)) as Hnd.
  rewrite <- Hk in Hnd.
  rewrite (dict_rebuild _ Hnd) at 1. rewrite Hk, map_map.
  apply map_ext. intros k. simpl. unfold Layout.group.
  rewrite !fold_get. reflexivity.
Qed.

Lemma with_key_nil (k : DefaultDict.key) (ms : list StatisticsLine) :
  ~ In k (map key ms) -> Spec.with_key k ms = [].
Proof.
  induction ms as [|m ms IH]; simpl; [reflexivity|]. intros Hn.
  destruct (key_eqb_spec (key m) k) as [He|_]; [tauto|]. apply IH. tauto.
Qed.

Lemma with_key_single (ms : list StatisticsLine) :
  NoDup (map key ms) ->
  forall m, In m ms -> Spec.with_key (key m) ms = [m].
Proof.
  induction ms as [|a ms IH]; simpl; intros Hnd m Hin; [easy|].
  inversion Hnd as [|? ? Hnotin Hnd']; subst.
  destruct Hin as [->|Hin].
  - rewrite key_eqb_refl. f_equal. now apply with_key_nil.
  - destruct (key_eqb_spec (key a) (key m)) as [He|_]; [|now apply IH].
    destruct Hnotin. rewrite He. now apply in_map.
Qed.

Lemma first_occurrences_fixed (ks : list DefaultDict.key) :
  NoDup ks -> Spec.first_occurrences ks = ks.
Proof.
  induction 1 as [|k ks Hnotin _ IH]; simpl; [reflexivity|].
  rewrite IH. f_equal. apply filter_all.
  rewrite Forall_forall. intros k' Hin.
  destruct (key_eqb_spec k' k); [congruence|reflexivity].
Qed.

Lemma group_single (m : StatisticsLine) (ms : list StatisticsLine) :
  Spec.with_key (key m) ms = [m] -> Layout.group ms (key m) = m.
Proof.
  unfold Layout.group. intros ->. destruct m as [c sz f l].
  unfold Spec.sum_count, Spec.sum_size. simpl. now rewrite !Z.add_0_r.
Qed.

Lemma agg_stats_distinct (ms : list StatisticsLine) :
  NoDup (map key ms) -> agg_stats ms = ms.
Proof.
  intros Hnd. rewrite agg_stats_closed, first_occurrences_fixed by assumption.
  rewrite map_map. rewrite <- (map_id ms) at 2.
  apply map_ext_in. intros m Hin.
  apply group_single. now apply with_key_single.
Qed.

Lemma agg_stats_NoDup (ms : list StatisticsLine) :
  NoDup (map key (agg_stats ms)).
Proof. rewrite agg_stats_keys. apply first_occurrences_NoDup. Qed.

(** X10: [agg_stats] as an equation: for each key, in the order of first
    occurrence, the record made of the sums over the inputs of that key. *)
Theorem X10_agg_stats_closed_form (ms : list StatisticsLine) :
  agg_stats ms
  = map (Layout.group ms) (Spec.first_occurrences (map key ms)).
Proof. apply agg_stats_closed. Qed.

(** X11: on records whose keys are pairwise distinct [agg_stats] changes
    nothing; aggregating its own output is therefore a fixed point. *)
Theorem X11_agg_stats_fixed_on_distinct_keys (ms : list StatisticsLine) :
  (NoDup (map key ms) -> agg_stats ms = ms)
  /\ agg_stats (agg_stats ms) = agg_stats ms.
Proof.
  split; [apply agg_stats_distinct|].
  apply agg_stats_distinct, agg_stats_NoDup.
Qed.

Lemma Permutation_filter_any {A : Type} (keep : A -> bool) (l1 l2 : list A) :
  Permutation l1 l2 -> Permutation (filter keep l1) (filter keep l2).
Proof.
  induction 1 as [|x l1 l2 _ IH|x y l|l1 l2 l3 _ IH1 _ IH2]; simpl.
  - constructor.
  - destruct (keep x); [now constructor|assumption].
  - destruct (keep x), (keep y); try reflexivity. apply perm_swap.
  - now transitivity (filter keep l2).
Qed.

Lemma sum_Z_perm (l1 l2 : list Z) :
  Permutation l1 l2 -> Spec.sum_Z l1 = Spec.sum_Z l2.
Proof.
  induction 1 as [|x l1 l2 _ IH|x y l|l1 l2 l3 _ IH1 _ IH2]; simpl; lia.
Qed.

Lemma group_perm (ms ms' : list StatisticsLine) (k : DefaultDict.key) :
  Permutation ms ms' -> Layout.group ms k = Layout.group ms' k.
Proof.
  intros Hp. unfold Layout.group, Spec.sum_count, Spec.sum_size, Spec.with_key.
  f_equal; apply sum_Z_perm, Permutation_map, Permutation_filter_any, Hp.
Qed.

(** X12: the order of the input decides only the order of the output: a
    rearranged input gives the same records, rearranged. *)
Theorem X12_agg_stats_permutation (ms ms' : list StatisticsLine) :
  Permutation ms ms' -> Permutation (agg_stats ms) (agg_stats ms').
Proof.
  intros Hp. rewrite !agg_stats_closed.
  rewrite (map_ext _ _ (fun k => eq_sym (group_perm ms ms' k Hp))).
  apply Permutation_map.
  apply NoDup_Permutation; try apply first_occurrences_NoDup.
  intros k. rewrite !first_occurrences_In.
  split; apply Permutation_in; [|symmetry]; now apply Permutation_map.
Qed.

End AggProperties.

Lemma X11_witness :
  agg_stats [mkStat 1 10 "a" "x"; mkStat 1 20 "b" "x"]
  = [mkStat 1 10 "a" "x"; mkStat 1 20 "b" "x"].
Proof.
  apply (proj1 (X11_agg_stats_fixed_on_distinct_keys _)).
  simpl. repeat constructor; simpl; intuition discriminate.
Defined.

Lemma X12_witness :
  Permutation
    (agg_stats [mkStat 1 10 "a" "x"; mkStat 1 20 "b" "x"; mkStat 1 5 "a" "x"])
    (agg_stats [mkStat 1 20 "b" "x"; mkStat 1 10 "a" "x"; mkStat 1 5 "a" "x"]).
Proof.
  apply X12_agg_stats_permutation. apply perm_swap.
Defined.

(** ** Aggregating partial aggregates *)

Section AggChunks.

Lemma first_occurrences_app (a b : list DefaultDict.key) :
  Spec.first_occurrences (a ++ b)
  = Spec.first_occurrences a
    ++ filter (Layout.fresh a) (Spec.first_occurrences b).
Proof.
  induction a as [|x a IH]; simpl.
  - symmetry. apply filter_true.
  - rewrite IH, filter_app, filter_twice. f_equal. f_equal.
    apply filter_ext. intros k. unfold Layout.fresh. simpl.
    rewrite negb_orb. reflexivity.
Qed.

Lemma fresh_first_occurrences (a : list DefaultDict.key) (k : DefaultDict.key) :
  Layout.fresh (Spec.first_occurrences a) k = Layout.fresh a k.
Proof.
  unfold Layout.fresh. f_equal.
  destruct (existsb (DefaultDict.key_eqb k) a) eqn:E.
  - apply existsb_key_In. apply first_occurrences_In.
    now apply existsb_key_In.
  - destruct (existsb _ (Spec.first_occurrences a)) eqn:E'; [|reflexivity].
    apply (proj1 (existsb_key_In _ _)) in E'.
    apply (proj1 (first_occurrences_In _ _)) in E'.
    apply (proj2 (existsb_key_In _ _)) in E'. congruence.
Qed.

Lemma group_agg_stats (l : list StatisticsLine) (k : DefaultDict.key) :
  Layout.group (agg_stats l) k = Layout.group l k.
Proof.
  destruct (existsb (DefaultDict.key_eqb k) (map key l)) eqn:E.
  - apply existsb_key_In in E.
    assert (Hin : In (Layout.group l k) (agg_stats l)).
    { rewrite agg_stats_closed. apply in_map.
      now apply first_occurrences_In. }
    assert (Hk : key (Layout.group l k) = k) by apply key_of_item.
    pose proof (with_key_single _ (agg_stats_NoDup l) _ Hin) as Hw.
    rewrite Hk in Hw.
    unfold Layout.group at 1. rewrite Hw.
    unfold Spec.sum_count, Spec.sum_size. simpl.
    rewrite !Z.add_0_r. reflexivity.
  - assert (Hn : ~ In k (map key l)).
    { intros Hin. apply existsb_key_In in Hin. congruence. }
    unfold Layout.group. rewrite (with_key_nil k l Hn).
    rewrite with_key_nil; [reflexivity|].
    rewrite agg_stats_keys, first_occurrences_In. exact Hn.
Qed.

Lemma group_app (l1 l2 : list StatisticsLine) (k : DefaultDict.key) :
  Layout.group (l1 ++ l2) k
  = mkStat (count (Layout.group l1 k) + count (Layout.group l2 k))
           (total_size_bytes (Layout.group l1 k)
            + total_size_bytes (Layout.group l2 k))
           (fst k) (snd k).
Proof.
  unfold Layout.group, Spec.sum_count, Spec.sum_size, Spec.with_key. simpl.
  rewrite filter_app, !map_app. f_equal.
  - generalize (map count (filter (fun m => DefaultDict.key_eqb (key m) k) l1)).
    intros l. induction l as [|z l IH]; simpl; [reflexivity|].
    unfold Spec.sum_Z in *. simpl. rewrite IH. lia.
  - generalize
      (map total_size_bytes (filter (fun m => DefaultDict.key_eqb (key m) k) l1)).
    intros l. induction l as [|z l IH]; simpl; [reflexivity|].
    unfold Spec.sum_Z in *. simpl. rewrite IH. lia.
Qed.

(** X13: the aggregate of a sequence can be computed from the aggregates
    of its two parts: aggregating these, one after the other, gives the
    aggregate of the whole, in the same order. *)
Theorem X13_agg_stats_of_partial_aggregates (l1 l2 : list StatisticsLine) :
  agg_stats (agg_stats l1 ++ agg_stats l2) = agg_stats (l1 ++ l2).
Proof.
  rewrite (agg_stats_closed (agg_stats l1 ++ agg_stats l2)).
  rewrite (agg_stats_closed (l1 ++ l2)).
  rewrite !map_app, !agg_stats_keys, !first_occurrences_app.
  rewrite (first_occurrences_fixed (Spec.first_occurrences (map key l1)))
    by apply first_occurrences_NoDup.
  rewrite (first_occurrences_fixed (Spec.first_occurrences (map key l2)))
    by apply first_occurrences_NoDup.
  rewrite (filter_ext _ _ (fresh_first_occurrences (map key l1))).
  apply map_ext. intros k.
  now rewrite !group_app, !group_agg_stats.
Qed.

End AggChunks.

(** ** The whole run, [main] *)

Section MainProperties.

Variable E : Email.

Lemma sort_stats_perm (ms : list StatisticsLine) :
  Permutation (sort_stats ms) ms.
Proof. apply sorted_perm. Qed.

Lemma sort_stats_sorted (ms : list StatisticsLine) :
  StronglySorted Spec.size_le (sort_stats ms).
Proof.
  apply Sorted_StronglySorted.
  - unfold Spec.size_le. intros x y z. lia.
  - apply sorted_Sorted; unfold Spec.size_le; intros x y H;
      [apply Z.ltb_lt in H|apply Z.ltb_ge in H]; lia.
Qed.

Lemma agg_stats_sum_size (ms : list StatisticsLine) :
  Spec.sum_size (agg_stats ms) = Spec.sum_size ms.
Proof.
  unfold Spec.sum_size. rewrite agg_stats_unfold, map_map. simpl.
  now rewrite fold_sum.
Qed.

Lemma agg_stats_sum_count (ms : list StatisticsLine) :
  Spec.sum_count (agg_stats ms) = Spec.sum_count ms.
Proof.
  unfold Spec.sum_count. rewrite agg_stats_unfold, map_map. simpl.
  rewrite <- (map_map fst (fun k => DefaultDict.get k _)).
  rewrite sizes_keys, <- counts_keys, sum_get_keys.
  - now rewrite fold_sum.
  - rewrite counts_keys. apply first_occurrences_NoDup.
Qed.

Lemma sort_stats_sums (ms : list StatisticsLine) :
  Spec.sum_count (sort_stats ms) = Spec.sum_count ms
  /\ Spec.sum_size (sort_stats ms) = Spec.sum_size ms.
Proof.
  unfold Spec.sum_count, Spec.sum_size.
  split; apply sum_Z_perm, Permutation_map, sort_stats_perm.
Qed.

(** What the two flags do to the records leaves both sums as they
    are. *)
Lemma stages_sums (agg sort : bool) (recs : list StatisticsLine) :
  Spec.sum_count ((if sort then sort_stats else fun l => l)
                    ((if agg then agg_stats else fun l => l) recs))
  = Spec.sum_count recs
  /\ Spec.sum_size ((if sort then sort_stats else fun l => l)
                      ((if agg then agg_stats else fun l => l) recs))
     = Spec.sum_size recs.
Proof.
  destruct agg, sort;
    rewrite ?(proj1 (sort_stats_sums _)), ?(proj2 (sort_stats_sums _)),
      ?agg_stats_sum_count, ?agg_stats_sum_size; auto.
Qed.

Lemma sum_ones {A : Type} (l : list A) :
  Spec.sum_Z (map (fun _ => 1) l) = Z.of_nat (List.length l).
Proof.
  induction l as [|a l IH]; [reflexivity|].
  cbn [map Spec.sum_Z fold_right List.length].
  fold (Spec.sum_Z (map (fun _ : A => 1) l)).
  rewrite IH. lia.
Qed.

Lemma first_occurrences_length (ks : list DefaultDict.key) :
  (List.length (Spec.first_occurrences ks) <= List.length ks)%nat.
Proof.
  induction ks as [|k ks IH]; simpl; [lia|].
  pose proof (filter_length_le
                (fun k' => negb (DefaultDict.key_eqb k' k))
                (Spec.first_occurrences ks)). lia.
Qed.

Lemma agg_stats_length (ms : list StatisticsLine) :
  (List.length (agg_stats ms) <= List.length ms)%nat.
Proof.
  rewrite <- (length_map key (agg_stats ms)), agg_stats_keys.
  rewrite <- (length_map key ms). apply first_occurrences_length.
Qed.

(** The records of a well-formed source: how many, and what they add up
    to, by the way the iteration ends. *)
Lemma records_account (src : bytes) (r : MboxReader.t) :
  init src = Some r ->
  let n := List.length (filter Spec.is_sentinel (Spec.lines_of src)) in
  let recs := fst (read_messages E r) in
  Spec.sum_count recs = Z.of_nat (List.length recs)
  /\ (snd (read_messages E r) = StopIteration ->
      List.length recs = n
      /\ Spec.sum_size recs = len src - Spec.sentinel_bytes src)
  /\ (snd (read_messages E r) = Exception ->
      (List.length recs < n)%nat
      /\ 0 <= Spec.sum_size recs <= len src - Spec.sentinel_bytes src).
Proof.
  intros Hi n recs. subst n recs.
  destruct (read_messages_spec E src r Hi)
    as (done & rest & Hps & Hb & Hf2 & Hf & Hs & He).
  destruct (scan_init src r Hi) as (_ & _ & Hlen & Hsum).
  destruct (stats_sizes E done _ Hf2) as (Hsz & Hc & Hn).
  pose proof (f_equal (@List.length bytes) Hps) as Hl.
  rewrite length_app, !length_map, Hlen in Hl.
  rewrite Hps, map_app, sum_Z_app in Hsum.
  pose proof (sum_len_nonneg (map payload done)).
  pose proof (sum_len_nonneg rest).
  unfold Spec.sum_count, Spec.sum_size.
  rewrite Hsz, Hc, (built_sizes E done Hb), sum_ones, Hn.
  split; [reflexivity|]. split.
  - intros Hx. apply Hs in Hx. subst rest. simpl in *. split; lia.
  - intros Hx. destruct (He Hx) as (p & rest' & -> & _). simpl in Hl.
    split; lia.
Qed.

(** X14: whatever the flags, on a well-formed source: when [main] ends
    after printing, the lines account for every message and every byte
    outside the sentinel lines (their counts add up to the number of
    sentinel lines of the source and their sizes to its length less the
    bytes of those lines); when an exception of the library ends it, what
    was printed before accounts for less than that number and for no more
    than those bytes.  It ends after printing when neither the parse nor
    a lookup raises on a record. *)
Theorem X14_main_conserves_counts_and_sizes
    (agg sort : bool) (src : bytes) (reader : MboxReader.t) :
  init src = Some reader ->
  (forall lines,
     main E agg sort src = Printed lines ->
     Spec.sum_count lines
     = Z.of_nat (List.length (filter Spec.is_sentinel (Spec.lines_of src)))
     /\ Spec.sum_size lines = len src - Spec.sentinel_bytes src)
  /\ (forall lines,
        main E agg sort src = Crashed lines ->
        Spec.sum_count lines
        < Z.of_nat (List.length (filter Spec.is_sentinel (Spec.lines_of src)))
        /\ 0 <= Spec.sum_size lines <= len src - Spec.sentinel_bytes src)
  /\ (Forall (Lines.quiet E) (map Spec.content (Spec.records src)) ->
      exists lines, main E agg sort src = Printed lines).
Proof.
  intros Hi. rewrite (main_cases E agg sort src reader Hi).
  pose proof (quiet_finishes E src reader Hi) as Hq.
  destruct (records_account src reader Hi) as (Hc & Hstop & Hexc).
  destruct (snd (read_messages E reader)) eqn:He.
  - split; [|split; [discriminate|eauto]].
    intros lines Hp. injection Hp as <-.
    destruct (stages_sums agg sort (fst (read_messages E reader))) as [-> ->].
    destruct (Hstop eq_refl) as [Hn Hsz]. rewrite Hc, Hn. auto.
  - split; [discriminate|]. split.
    + intros lines Hp. injection Hp as <-.
      destruct (Hexc eq_refl) as [Hn Hsz].
      destruct (agg || sort); [unfold Spec.sum_count, Spec.sum_size; simpl; lia|].
      rewrite Hc. split; [lia|exact Hsz].
    + intros Hall. specialize (Hq Hall). discriminate.
  - split; [discriminate|]. split; [discriminate|].
    intros Hall. specialize (Hq Hall). discriminate.
Qed.

(** X15: on a well-formed source [main] ends after printing or with an
    exception of the library.  When it ends after printing: with
    [--sort] the lines ascend by size, with [--agg] their keys are
    pairwise distinct (also when sorted), without [--agg] there is one
    line per sentinel line of the source and with it at most as many.
    When an exception ends it: with [--agg] or [--sort] nothing was
    printed before, and in any case fewer lines than the source has
    sentinel lines. *)
Theorem X15_main_output_by_flags
    (agg sort : bool) (src : bytes) (reader : MboxReader.t) :
  init src = Some reader ->
  (exists lines, main E agg sort src = Printed lines
                 \/ main E agg sort src = Crashed lines)
  /\ (forall lines,
        main E agg sort src = Printed lines ->
        (sort = true -> StronglySorted Spec.size_le lines)
        /\ (agg = true -> NoDup (map key lines))
        /\ (agg = false ->
            List.length lines
            = List.length (filter Spec.is_sentinel (Spec.lines_of src)))
        /\ (List.length lines
            <= List.length (filter Spec.is_sentinel (Spec.lines_of src)))%nat)
  /\ (forall lines,
        main E agg sort src = Crashed lines ->
        (agg = true \/ sort = true -> lines = [])
        /\ (List.length lines
            < List.length (filter Spec.is_sentinel (Spec.lines_of src)))%nat).
Proof.
  intros Hi. rewrite (main_cases E agg sort src reader Hi).
  destruct (read_messages_spec E src reader Hi) as (_ & _ & _ & _ & _ & Hf & _).
  destruct (records_account src reader Hi) as (_ & Hstop & Hexc).
  set (raw := fst (read_messages E reader)) in *.
  pose proof (agg_stats_length raw) as Hagg.
  pose proof (agg_stats_NoDup raw) as Hnd.
  destruct (snd (read_messages E reader)); [| |congruence].
  - destruct (Hstop eq_refl) as [Hraw _].
    split; [eauto|]. split; [|discriminate].
    intros lines Hp. injection Hp as <-.
    destruct agg, sort; cbv beta iota;
      (split; [first [intros _; apply sort_stats_sorted|discriminate]|]);
      (split;
       [first [discriminate
              |intros _;
               first [exact Hnd
                     |eapply Permutation_NoDup; [|exact Hnd];
                      apply Permutation_map; symmetry; apply sort_stats_perm]]|]);
      (split;
       [first [discriminate
              |intros _; rewrite ?(Permutation_length (sort_stats_perm _));
               exact Hraw]|]);
      rewrite ?(Permutation_length (sort_stats_perm _)); lia.
  - destruct (Hexc eq_refl) as [Hraw _].
    split; [eauto|]. split; [discriminate|].
    intros lines Hp. injection Hp as <-.
    destruct agg, sort; simpl; (split; [|lia]);
      try reflexivity. intros [H|H]; discriminate.
Qed.

End MainProperties.

Lemma X14_witness :
  Spec.sum_count [mkStat 2 1 "None" "None"]
  = Z.of_nat (List.length (filter Spec.is_sentinel
                             (Spec.lines_of Ex.two_sentinels)))
  /\ Spec.sum_size [mkStat 2 1 "None" "None"]
     = len Ex.two_sentinels - Spec.sentinel_bytes Ex.two_sentinels.
Proof.
  apply (proj1 (X14_main_conserves_counts_and_sizes Ex.plain true true
                  Ex.two_sentinels
                  (MboxReader.mk (b "From b" ++ [LF] ++ b "x") 15) eq_refl)).
  reflexivity.
Defined.

Lemma X15_witness :
  StronglySorted Spec.size_le [mkStat 2 1 "None" "None"]
  /\ NoDup (map key [mkStat 2 1 "None" "None"]).
Proof.
  destruct (proj1 (proj2 (X15_main_output_by_flags Ex.plain true true
                            Ex.two_sentinels
                            (MboxReader.mk (b "From b" ++ [LF] ++ b "x") 15)
                            eq_refl)) [mkStat 2 1 "None" "None"] eq_refl)
    as (Hs & Hn & _).
  auto.
Defined.

(** ** The printed line *)

Section SinkProperties.

Local Open Scope string_scope.

Lemma uint_no_blank (d : Decimal.uint) :
  Spec.mem " " (DecimalString.NilEmpty.string_of_uint d) = false.
Proof. induction d; simpl; auto. Qed.

Lemma str_int_no_blank (n : Z) : Spec.mem " " (Sink.str_int n) = false.
Proof.
  unfold Sink.str_int, DecimalString.NilZero.string_of_int,
    DecimalString.NilZero.string_of_uint.
  destruct (Z.to_int n) as [d|d]; destruct d; simpl;
    auto using uint_no_blank.
Qed.

Lemma field_app (s rest : string) :
  Spec.mem " " s = false ->
  Layout.field (s ++ String " " rest) = (s, rest).
Proof.
  induction s as [|c s IH]; simpl; [reflexivity|].
  destruct (Ascii.eqb c " "); simpl; [discriminate|].
  intros H. now rewrite IH.
Qed.

Lemma read_str_int (n : Z) : Layout.read_int (Sink.str_int n) = Some n.
Proof.
  unfold Layout.read_int, Sink.str_int.
  rewrite DecimalString.NilZero.isi.
  - simpl. now rewrite DecimalZ.of_to.
  - destruct n; simpl; try discriminate.
    intros H. injection H as H.
    now apply DecimalPos.Unsigned.to_uint_nonnil in H.
  - destruct n; simpl; try discriminate.
    intros H. injection H as H.
    now apply DecimalPos.Unsigned.to_uint_nonnil in H.
Qed.

(** X16: the two numbers of a printed line can be read back whatever the
    sender and the labels hold: the text before the first blank is the
    size, the text up to the second blank is the count, and what follows
    is the sender, a blank, the labels and the line end, verbatim. *)
Theorem X16_print_line_fields_read_back (m : StatisticsLine) :
  Layout.read_int (fst (Layout.field (Sink.print_line m)))
  = Some (total_size_bytes m)
  /\ Layout.read_int
       (fst (Layout.field (snd (Layout.field (Sink.print_line m)))))
     = Some (count m)
  /\ snd (Layout.field (snd (Layout.field (Sink.print_line m))))
     = from_addr m ++ " " ++ labels m ++ Sink.newline.
Proof.
  unfold Sink.print_line.
  change (Sink.str_int (total_size_bytes m) ++ " " ++ Sink.str_int (count m)
          ++ " " ++ from_addr m ++ " " ++ labels m ++ Sink.newline)
    with (Sink.str_int (total_size_bytes m)
          ++ String " " (Sink.str_int (count m)
          ++ String " " (from_addr m ++ " " ++ labels m ++ Sink.newline))).
  rewrite field_app by apply str_int_no_blank. simpl fst. simpl snd.
  rewrite field_app by apply str_int_no_blank. simpl fst. simpl snd.
  rewrite !read_str_int. auto.
Qed.

End SinkProperties.

(** ** The lines of a payload *)

Section PayloadLines.

Variable E : Email.

Lemma scan_payload_lines (P : bytes -> Prop) (ls : list bytes) :
  Forall P ls ->
  forall buf,
  Forall (fun l => Spec.is_sentinel l = false /\ P l) buf ->
  Forall (fun p =>
            exists run,
              p = List.concat run
              /\ Forall (fun l => Spec.is_sentinel l = false /\ P l) run)
         (Lines.scan buf ls).
Proof.
  induction 1 as [|l ls Hl _ IH]; intros buf Hbuf; simpl.
  - constructor; [|constructor]. exists buf. auto.
  - destruct (Spec.is_sentinel l) eqn:E0.
    + constructor; [exists buf; auto|]. apply IH. constructor.
    + apply IH. apply Forall_app. split; [assumption|].
      constructor; [auto|constructor].
Qed.

(** X17: the payload of every message the scan yields is made of whole
    lines of the source that do not start with the sentinel: no sentinel
    line ever stands inside a message. *)
Theorem X17_payloads_hold_no_sentinel_line (src : bytes) (reader : MboxReader.t) :
  init src = Some reader ->
  exists msgs e,
    messages E reader = (msgs, e)
    /\ Forall (fun m =>
                 exists run,
                   payload m = List.concat run
                   /\ Forall (fun l => Spec.is_sentinel l = false
                                       /\ In l (Spec.lines_of src)) run)
              msgs.
Proof.
  intros Hi. destruct (init_Some _ _ Hi) as (l0 & Hl & _).
  rewrite messages_emit.
  destruct (emit_spec E (Lines.scan [] (Spec.lines_of (handle reader))))
    as (rest & Hps & _).
  destruct (Lines.emit E (Lines.scan [] (Spec.lines_of (handle reader))))
    as [msgs e]; simpl in *.
  exists msgs, e. split; [reflexivity|].
  assert (Hall : Forall (fun p =>
                   exists run,
                     p = List.concat run
                     /\ Forall (fun l => Spec.is_sentinel l = false
                                         /\ In l (Spec.lines_of src)) run)
                   (Lines.scan [] (Spec.lines_of (handle reader)))).
  { apply scan_payload_lines; [|constructor].
    rewrite Forall_forall. intros l Hin. rewrite Hl. now right. }
  rewrite Hps in Hall. apply Forall_app in Hall as [Hall _].
  rewrite Forall_forall in *. intros m Hm. apply Hall. now apply in_map.
Qed.

End PayloadLines.

Lemma X17_witness :
  exists msgs e,
    messages Ex.plain (MboxReader.mk (b "body" ++ [LF]) 12) = (msgs, e)
    /\ Forall (fun m =>
                 exists run,
                   payload m = List.concat run
                   /\ Forall (fun l => Spec.is_sentinel l = false
                                       /\ In l (Spec.lines_of Ex.one_message))
                             run)
              msgs.
Proof.
  apply (X17_payloads_hold_no_sentinel_line Ex.plain Ex.one_message).
  reflexivity.
Defined.

(** ** Stability determines the sorted output *)

Section SortProperties.

Lemma of_size_In (sz : Z) (ms : list StatisticsLine) (m : StatisticsLine) :
  In m (Spec.of_size sz ms) <-> In m ms /\ total_size_bytes m = sz.
Proof. unfold Spec.of_size. rewrite filter_In, Z.eqb_eq. tauto. Qed.

Lemma of_size_head (m : StatisticsLine) (ms : list StatisticsLine) :
  Spec.of_size (total_size_bytes m) (m :: ms)
  = m :: Spec.of_size (total_size_bytes m) ms.
Proof. unfold Spec.of_size. simpl. now rewrite Z.eqb_refl. Qed.

(** Two ascending lists that agree on the records of each size are the
    same list. *)
Lemma sorted_by_classes (l1 : list StatisticsLine) :
  forall l2,
  StronglySorted Spec.size_le l1 -> StronglySorted Spec.size_le l2 ->
  (forall sz, Spec.of_size sz l1 = Spec.of_size sz l2) -> l1 = l2.
Proof.
  induction l1 as [|x l1 IH]; intros l2 H1 H2 Hc.
  - destruct l2 as [|y l2]; [reflexivity|].
    specialize (Hc (total_size_bytes y)). rewrite of_size_head in Hc.
    discriminate.
  - destruct l2 as [|y l2].
    + specialize (Hc (total_size_bytes x)). rewrite of_size_head in Hc.
      discriminate.
    + inversion H1 as [|? ? Hs1 Hf1]; inversion H2 as [|? ? Hs2 Hf2]; subst.
      rewrite Forall_forall in Hf1, Hf2. unfold Spec.size_le in Hf1, Hf2.
      assert (Hxy : total_size_bytes x = total_size_bytes y).
      { assert (Hx : In x (y :: l2)).
        { apply (of_size_In (total_size_bytes x)). rewrite <- Hc.
          rewrite of_size_head. now left. }
        assert (Hy : In y (x :: l1)).
        { apply (of_size_In (total_size_bytes y)). rewrite Hc.
          rewrite of_size_head. now left. }
        destruct Hx as [->|Hx]; [reflexivity|].
        destruct Hy as [->|Hy]; [reflexivity|].
        apply Hf2 in Hx. apply Hf1 in Hy. lia. }
      pose proof (Hc (total_size_bytes x)) as Hcx.
      rewrite of_size_head, Hxy, of_size_head in Hcx.
      injection Hcx as -> Htl.
      f_equal. apply IH; try assumption.
      intros sz. specialize (Hc sz). unfold Spec.of_size in *. simpl in Hc.
      destruct (total_size_bytes y =? sz) eqn:E; [|exact Hc].
      now injection Hc.
Qed.

(** X18: ascending order and stability leave no choice: a list that
    ascends by size and holds, for each size, the records of the input
    with that size in their original order is the output of
    [sort_stats]. *)
Theorem X18_sort_stats_determined_by_stability (ms out : list StatisticsLine) :
  StronglySorted Spec.size_le out ->
  (forall sz, Spec.of_size sz out = Spec.of_size sz ms) ->
  out = sort_stats ms.
Proof.
  intros Hs Hc. apply sorted_by_classes; [exact Hs| |].
  - apply Sorted_StronglySorted.
    + unfold Spec.size_le. intros x y z. lia.
    + apply sorted_Sorted; unfold Spec.size_le; intros x y H;
        [apply Z.ltb_lt in H|apply Z.ltb_ge in H]; lia.
  - intros sz. rewrite Hc. symmetry. apply sorted_filter.
    intros x y H Hy. apply Z.ltb_lt in H. apply Z.eqb_eq in Hy.
    apply Z.eqb_neq. lia.
Qed.

End SortProperties.

Lemma X18_witness :
  [mkStat 1 5 "b" ""; mkStat 1 7 "a" ""; mkStat 1 7 "c" ""]
  = sort_stats [mkStat 1 7 "a" ""; mkStat 1 5 "b" ""; mkStat 1 7 "c" ""].
Proof.
  apply X18_sort_stats_determined_by_stability.
  - repeat constructor; unfold Spec.size_le; simpl; lia.
  - intros sz. unfold Spec.of_size. cbn [filter total_size_bytes].
    destruct (7 =? sz) eqn:E7; destruct (5 =? sz) eqn:E5; try reflexivity.
    apply Z.eqb_eq in E7, E5. lia.
Defined.
